(** * go-i2c: register-level I2C access over a Linux bus device node

    A shallow embedding of [i2c.go].  The driver is a thin layer over an
    [*os.File]: every method is a short sequence of calls to [File.Write]
    and [File.Read] with some fixed-width integer arithmetic in between.

    The embedding keeps both aspects:
    - Go's [uint16] / [int16] / [byte] arithmetic is written out on [Z]
      with explicit wrap-around;
    - the calls that leave the package ([os.OpenFile], the [ioctl] system
      call, [File.Write], [File.Read], [File.Close], the logger) are
      recorded, in order, with their arguments and results, so that a run
      of a method yields its result together with the traffic it caused. *)

From Stdlib Require Import ZArith List String Lia Bool.
From Stdlib Require Import Strings.Byte.
From Stdlib Require Import DecimalString.
Import ListNotations.
Local Open Scope Z_scope.

(** ** Fixed-width integers *)

Module GoInt.

(** Conversion to [uint16]: reduction modulo 2^16. *)
Definition uint16 (z : Z) : Z := z mod 65536.

(** Conversion to [int16]: two's-complement reduction to
    [-32768 .. 32767]. *)
Definition int16 (z : Z) : Z := (z + 32768) mod 65536 - 32768.

(** The numeric value of a byte, [0 .. 255]. *)
Definition byte_val (b : byte) : Z := Z.of_N (Byte.to_N b).

(** Conversion to [byte]: keeps the low eight bits. *)
Definition to_byte (z : Z) : byte :=
  match Byte.of_N (Z.to_N (z mod 256)) with
  | Some b => b
  | None => x00
  end.

(** [len] of a slice, as a Go [int]. *)
Definition len {A : Type} (l : list A) : Z := Z.of_nat (List.length l).

(** Operators on [uint16] operands; the result is reduced again. *)
Definition shl_u16 (x : Z) (s : Z) : Z := uint16 (Z.shiftl x s).
Definition shr_u16 (x : Z) (s : Z) : Z := Z.shiftr x s.
Definition add_u16 (x y : Z) : Z := uint16 (x + y).
Definition mul_u16 (x y : Z) : Z := uint16 (x * y).

(** Operators on [int16] operands.  [>>] on a signed operand is the
    arithmetic shift, which is what [Z.shiftr] is on negative numbers;
    [&] acts on the two's-complement representation, as [Z.land]. *)
Definition shl_s16 (x : Z) (s : Z) : Z := int16 (Z.shiftl x s).
Definition shr_s16 (x : Z) (s : Z) : Z := Z.shiftr x s.
Definition add_s16 (x y : Z) : Z := int16 (x + y).

End GoInt.
Import GoInt.

(** ** Errors, files and recorded calls *)

(** Go's [error] values that can reach the driver: a bare
    [syscall.Errno] (from [ioctl]) or an error produced by package [os]. *)
Inductive error : Type :=
| Errno (code : Z)
| PathError (op : string) (path : string) (code : Z)
| EOF.

(** An [*os.File]; [Fd] is the descriptor returned by [f.Fd()]. *)
Record File : Type := mkFile { Fd : Z }.

(** A [*logrus.Logger]: the one made by [logrus.New()] or one supplied
    by the caller. *)
Inductive Logger : Type :=
| LogrusNew
| UserLogger (id : Z).

(** The [Debugf] calls of the package, one constructor per format
    string, carrying the arguments. *)
Inductive Msg : Type :=
| MsgWriteBytes (n : Z) (hex : list byte)
| MsgReadBytes (n : Z) (hex : list byte)
| MsgReadReg (n : Z) (reg : byte)
| MsgReadU8 (value reg : byte)
| MsgWriteU8 (value reg : byte)
| MsgReadU16 (w : Z) (reg : byte)
| MsgReadS16 (w : Z) (reg : byte)
| MsgWriteU16 (buf : list byte) (reg : byte)
| MsgWriteS16 (value : Z) (reg : byte).

(** A call that left the package, with its result. *)
Inductive IOEvent : Type :=
| IoOpenFile (name : string) (flag perm : Z) (r : File + error)
| IoIoctl (fd cmd arg : Z) (errno : Z)
| IoWrite (f : File) (payload : list byte) (n : Z) (err : option error)
| IoRead (f : File) (want : Z) (data : list byte) (err : option error)
| IoClose (f : File) (err : option error).

(** The error an external call ended with, if any. *)
Definition io_error (ev : IOEvent) : option error :=
  match ev with
  | IoOpenFile _ _ _ (inl _) => None
  | IoOpenFile _ _ _ (inr e) => Some e
  | IoIoctl _ _ _ errno => if errno =? 0 then None else Some (Errno errno)
  | IoWrite _ _ _ err => err
  | IoRead _ _ _ err => err
  | IoClose _ err => err
  end.

(** What a recording double of the byte stream sees: the payload of
    each write, the requested length of each read. *)
Inductive BusOp : Type :=
| BusWrite (payload : list byte)
| BusRead (want : Z).

Fixpoint bus_traffic (evs : list IOEvent) : list BusOp :=
  match evs with
  | [] => []
  | IoWrite _ payload _ _ :: rest => BusWrite payload :: bus_traffic rest
  | IoRead _ want _ _ :: rest => BusRead want :: bus_traffic rest
  | _ :: rest => bus_traffic rest
  end.

(** The close calls among the recorded ones. *)
Fixpoint closes (evs : list IOEvent) : list File :=
  match evs with
  | [] => []
  | IoClose f _ :: rest => f :: closes rest
  | _ :: rest => closes rest
  end.

(** ** The operating system behind the file

    Everything below the driver is a state [K] with one transition per
    call.  [file_Read k f want] yields the bytes the device supplies for
    a read of at most [want] bytes. *)
Class OS (K : Type) : Type := {
  os_OpenFile : K -> string -> Z -> Z -> K * (File + error);
  sys_ioctl : K -> Z -> Z -> Z -> K * Z;
  file_Write : K -> File -> list byte -> K * (Z * option error);
  file_Read : K -> File -> Z -> K * (list byte * option error);
  file_Close : K -> File -> K * option error
}.

(** ** Runs

    A run either returns a value or panics; either way it leaves a
    state, the external calls it made and the log lines it emitted. *)
Inductive Result (A : Type) : Type :=
| Val (a : A)
| Panic (msg : string).
Arguments Val {A} a.
Arguments Panic {A} msg.

Record Out (K A : Type) : Type := mkOut {
  res : Result A;
  st : K;
  io : list IOEvent;
  diag : list (Logger * Msg)
}.
Arguments mkOut {K A} res st io diag.
Arguments res {K A} o.
Arguments st {K A} o.
Arguments io {K A} o.
Arguments diag {K A} o.

Definition M (K A : Type) : Type := K -> Out K A.

Definition ret {K A : Type} (a : A) : M K A :=
  fun k => mkOut (Val a) k [] [].

Definition bind {K A B : Type} (m : M K A) (f : A -> M K B) : M K B :=
  fun k =>
    match m k with
    | mkOut (Panic msg) k' evs ds => mkOut (Panic msg) k' evs ds
    | mkOut (Val a) k' evs ds =>
        match f a k' with
        | mkOut r k'' evs' ds' => mkOut r k'' (evs ++ evs') (ds ++ ds')
        end
    end.

Definition panic {K A : Type} (msg : string) : M K A :=
  fun k => mkOut (Panic msg) k [] [].

Declare Scope go_scope.
Delimit Scope go_scope with go.
Notation "x <- m ;; k" := (bind m (fun x => k))
  (at level 61, m at next level, right associativity) : go_scope.
Notation "' pat <- m ;; k" := (bind m (fun x => match x with pat => k end))
  (at level 61, pat pattern, m at next level, right associativity) : go_scope.
Notation "m ;; k" := (bind m (fun _ => k))
  (at level 61, right associativity) : go_scope.
Local Open Scope go_scope.

(** ** Slices *)

(** The largest size the Go runtime accepts for one allocation on
    64-bit Linux: [1 << 48] (48 heap address bits).  Where [int] has 32
    bits every non-negative [int] is below the limit of that platform
    and below this one, so the check below decides the same there. *)
Definition maxAlloc : Z := 0x1000000000000.

(** [make([]byte, n)]: the runtime panics when the length is negative
    or above the allocation limit, and otherwise yields a zeroed slice.
    A length that passes this check is taken to be allocated: running
    out of memory aborts the process, which is neither a panic nor a
    result. *)
Definition make {K : Type} (n : Z) : M K (list byte) :=
  if (n <? 0) || (maxAlloc <? n)
  then panic "runtime error: makeslice: len out of range"
  else ret (repeat x00 (Z.to_nat n)).

(** [buf[i]], with the bounds check. *)
Definition index {K : Type} (buf : list byte) (i : nat) : M K byte :=
  match nth_error buf i with
  | Some b => ret b
  | None => panic "runtime error: index out of range"
  end.

(** The effect of a read on the caller's buffer: the bytes received
    overwrite its front, the rest keeps its content. *)
Definition fill (buf data : list byte) : list byte :=
  let got := firstn (List.length buf) data in
  got ++ skipn (List.length got) buf.

(** ** The driver *)

Definition i2cSlave : Z := 0x0703.
Definition O_RDWR : Z := 2.

(** The permission bits [0600] (octal). *)
Definition perm0600 : Z := 384.

(** [fmt.Sprintf("/dev/i2c-%d", bus)]. *)
Definition device_path (bus : Z) : string :=
  ("/dev/i2c-" ++ NilZero.string_of_int (Z.to_int bus))%string.

Record I2C : Type := mkI2C { rc : File; log : Logger }.

Section Driver.

Context {K : Type} {os : OS K}.

(** *** Calls that leave the package *)

Definition OpenFile (name : string) (flag perm : Z) : M K (File + error) :=
  fun k =>
    let (k', r) := os_OpenFile k name flag perm in
    mkOut (Val r) k' [IoOpenFile name flag perm r] [].

Definition Syscall_ioctl (fd cmd arg : Z) : M K Z :=
  fun k =>
    let (k', errno) := sys_ioctl k fd cmd arg in
    mkOut (Val errno) k' [IoIoctl fd cmd arg errno] [].

Definition File_Write (f : File) (buf : list byte) : M K (Z * option error) :=
  fun k =>
    let (k', r) := file_Write k f buf in
    mkOut (Val r) k' [IoWrite f buf (fst r) (snd r)] [].

(** [f.Read(buf)]: returns the buffer as the call leaves it, the
    count and the error. *)
Definition File_Read (f : File) (buf : list byte)
  : M K (list byte * Z * option error) :=
  fun k =>
    let (k', r) := file_Read k f (len buf) in
    let buf' := fill buf (fst r) in
    let n := len (firstn (List.length buf) (fst r)) in
    mkOut (Val (buf', n, snd r)) k' [IoRead f (len buf) (fst r) (snd r)] [].

Definition File_Close (f : File) : M K (option error) :=
  fun k =>
    let (k', r) := file_Close k f in
    mkOut (Val r) k' [IoClose f r] [].

Definition Debugf (l : Logger) (m : Msg) : M K unit :=
  fun k => mkOut (Val tt) k [] [(l, m)].

(** *** [ioctl] *)
Definition ioctl (fd cmd arg : Z) : M K (option error) :=
  err <- Syscall_ioctl fd cmd arg ;;
  if negb (err =? 0) then ret (Some (Errno err)) else ret None.

(** *** [NewI2C] *)
Definition NewI2C (addr : byte) (bus : Z) : M K (option I2C * option error) :=
  r <- OpenFile (device_path bus) O_RDWR perm0600 ;;
  match r with
  | inr err => ret (None, Some err)
  | inl f =>
      err <- ioctl (Fd f) i2cSlave (byte_val addr) ;;
      match err with
      | Some e => ret (None, Some e)
      | None => ret (Some (mkI2C f LogrusNew), None)
      end
  end.

(** *** [SetLogger]: [log.WithField(..).Logger] is [log] itself. *)
Definition SetLogger (v : I2C) (l : Logger) : I2C := mkI2C (rc v) l.

Definition write (v : I2C) (buf : list byte) : M K (Z * option error) :=
  File_Write (rc v) buf.

Definition WriteBytes (v : I2C) (buf : list byte) : M K (Z * option error) :=
  Debugf (log v) (MsgWriteBytes (len buf) buf) ;;
  write v buf.

Definition read (v : I2C) (buf : list byte)
  : M K (list byte * Z * option error) :=
  File_Read (rc v) buf.

(** [ReadBytes] works on the caller's slice; the slice after the call
    is the first component of the result. *)
Definition ReadBytes (v : I2C) (buf : list byte)
  : M K (list byte * Z * option error) :=
  '(buf, n, err) <- read v buf ;;
  match err with
  | Some e => ret (buf, n, Some e)
  | None =>
      Debugf (log v) (MsgReadBytes (len buf) buf) ;;
      ret (buf, n, None)
  end.

Definition Close (v : I2C) : M K (option error) :=
  File_Close (rc v).

(** *** Register reads *)

(** The results follow Go's tuples; a [nil] slice is [None]. *)
Definition ReadRegBytes (v : I2C) (reg : byte) (n : Z)
  : M K (option (list byte) * Z * option error) :=
  Debugf (log v) (MsgReadReg n reg) ;;
  '(_, err) <- WriteBytes v [reg] ;;
  match err with
  | Some e => ret (None, 0, Some e)
  | None =>
      buf <- make n ;;
      '(buf, c, err) <- ReadBytes v buf ;;
      match err with
      | Some e => ret (None, 0, Some e)
      | None => ret (Some buf, c, None)
      end
  end.

Definition ReadRegU8 (v : I2C) (reg : byte) : M K (byte * option error) :=
  '(_, err) <- WriteBytes v [reg] ;;
  match err with
  | Some e => ret (x00, Some e)
  | None =>
      buf <- make 1 ;;
      '(buf, _, err) <- ReadBytes v buf ;;
      match err with
      | Some e => ret (x00, Some e)
      | None =>
          b0 <- index buf 0 ;;
          Debugf (log v) (MsgReadU8 b0 reg) ;;
          ret (b0, None)
      end
  end.

(** [uint16(buf[0])<<8 + uint16(buf[1])] *)
Definition word_u16 (b0 b1 : byte) : Z :=
  add_u16 (shl_u16 (uint16 (byte_val b0)) 8) (uint16 (byte_val b1)).

Definition ReadRegU16BE (v : I2C) (reg : byte) : M K (Z * option error) :=
  '(_, err) <- WriteBytes v [reg] ;;
  match err with
  | Some e => ret (0, Some e)
  | None =>
      buf <- make 2 ;;
      '(buf, _, err) <- ReadBytes v buf ;;
      match err with
      | Some e => ret (0, Some e)
      | None =>
          b0 <- index buf 0 ;;
          b1 <- index buf 1 ;;
          let w := word_u16 b0 b1 in
          Debugf (log v) (MsgReadU16 w reg) ;;
          ret (w, None)
      end
  end.

(** [(w&0xFF)<<8 + w>>8] on a [uint16]: the "exchange bytes" step of
    [ReadRegU16LE].  [<<], [>>] and [&] bind tighter than [+]. *)
Definition exchange_bytes_u16 (w : Z) : Z :=
  add_u16 (shl_u16 (Z.land w 0xFF) 8) (shr_u16 w 8).

Definition ReadRegU16LE (v : I2C) (reg : byte) : M K (Z * option error) :=
  '(w, err) <- ReadRegU16BE v reg ;;
  match err with
  | Some e => ret (0, Some e)
  | None => ret (exchange_bytes_u16 w, None)
  end.

(** [int16(buf[0])<<8 + int16(buf[1])] *)
Definition word_s16 (b0 b1 : byte) : Z :=
  add_s16 (shl_s16 (int16 (byte_val b0)) 8) (int16 (byte_val b1)).

Definition ReadRegS16BE (v : I2C) (reg : byte) : M K (Z * option error) :=
  '(_, err) <- WriteBytes v [reg] ;;
  match err with
  | Some e => ret (0, Some e)
  | None =>
      buf <- make 2 ;;
      '(buf, _, err) <- ReadBytes v buf ;;
      match err with
      | Some e => ret (0, Some e)
      | None =>
          b0 <- index buf 0 ;;
          b1 <- index buf 1 ;;
          let w := word_s16 b0 b1 in
          Debugf (log v) (MsgReadS16 w reg) ;;
          ret (w, None)
      end
  end.

(** The same expression, [(w&0xFF)<<8 + w>>8], on an [int16]: the
    "exchange bytes" step of [ReadRegS16LE]. *)
Definition exchange_bytes_s16 (w : Z) : Z :=
  add_s16 (shl_s16 (Z.land w 0xFF) 8) (shr_s16 w 8).

Definition ReadRegS16LE (v : I2C) (reg : byte) : M K (Z * option error) :=
  '(w, err) <- ReadRegS16BE v reg ;;
  match err with
  | Some e => ret (0, Some e)
  | None => ret (exchange_bytes_s16 w, None)
  end.

(** *** Register writes *)

Definition WriteRegU8 (v : I2C) (reg value : byte) : M K (option error) :=
  let buf := [reg; value] in
  '(_, err) <- WriteBytes v buf ;;
  match err with
  | Some e => ret (Some e)
  | None =>
      Debugf (log v) (MsgWriteU8 value reg) ;;
      ret None
  end.

Definition WriteRegU16BE (v : I2C) (reg : byte) (value : Z)
  : M K (option error) :=
  let buf := [reg;
              to_byte (shr_u16 (Z.land value 0xFF00) 8);
              to_byte (Z.land value 0xFF)] in
  '(_, err) <- WriteBytes v buf ;;
  match err with
  | Some e => ret (Some e)
  | None =>
      Debugf (log v) (MsgWriteU16 buf reg) ;;
      ret None
  end.

(** [(value*0xFF00)>>8 + value<<8] on a [uint16]. *)
Definition le_word_u16 (value : Z) : Z :=
  add_u16 (shr_u16 (mul_u16 value 0xFF00) 8) (shl_u16 value 8).

Definition WriteRegU16LE (v : I2C) (reg : byte) (value : Z)
  : M K (option error) :=
  let w := le_word_u16 value in
  WriteRegU16BE v reg w.

Definition WriteRegS16BE (v : I2C) (reg : byte) (value : Z)
  : M K (option error) :=
  let buf := [reg;
              to_byte (shr_u16 (Z.land (uint16 value) 0xFF00) 8);
              to_byte (Z.land value 0xFF)] in
  '(_, err) <- WriteBytes v buf ;;
  match err with
  | Some e => ret (Some e)
  | None =>
      Debugf (log v) (MsgWriteS16 value reg) ;;
      ret None
  end.

(** [int16((uint16(value)*0xFF00)>>8) + value<<8] on an [int16]. *)
Definition le_word_s16 (value : Z) : Z :=
  add_s16 (int16 (shr_u16 (mul_u16 (uint16 value) 0xFF00) 8))
          (shl_s16 value 8).

Definition WriteRegS16LE (v : I2C) (reg : byte) (value : Z)
  : M K (option error) :=
  let w := le_word_s16 value in
  WriteRegS16BE v reg w.

(** *** The register operations as one family

    Each operation paired with the error it hands back to its caller. *)
Inductive RegOp : Type :=
| OpReadRegBytes (reg : byte) (n : Z)
| OpReadRegU8 (reg : byte)
| OpWriteRegU8 (reg value : byte)
| OpReadRegU16BE (reg : byte)
| OpReadRegU16LE (reg : byte)
| OpReadRegS16BE (reg : byte)
| OpReadRegS16LE (reg : byte)
| OpWriteRegU16BE (reg : byte) (value : Z)
| OpWriteRegU16LE (reg : byte) (value : Z)
| OpWriteRegS16BE (reg : byte) (value : Z)
| OpWriteRegS16LE (reg : byte) (value : Z).

Definition returned_error (v : I2C) (op : RegOp) : M K (option error) :=
  match op with
  | OpReadRegBytes reg n => r <- ReadRegBytes v reg n ;; ret (snd r)
  | OpReadRegU8 reg => r <- ReadRegU8 v reg ;; ret (snd r)
  | OpWriteRegU8 reg value => WriteRegU8 v reg value
  | OpReadRegU16BE reg => r <- ReadRegU16BE v reg ;; ret (snd r)
  | OpReadRegU16LE reg => r <- ReadRegU16LE v reg ;; ret (snd r)
  | OpReadRegS16BE reg => r <- ReadRegS16BE v reg ;; ret (snd r)
  | OpReadRegS16LE reg => r <- ReadRegS16LE v reg ;; ret (snd r)
  | OpWriteRegU16BE reg value => WriteRegU16BE v reg value
  | OpWriteRegU16LE reg value => WriteRegU16LE v reg value
  | OpWriteRegS16BE reg value => WriteRegS16BE v reg value
  | OpWriteRegS16LE reg value => WriteRegS16LE v reg value
  end.

End Driver.

(** ** Reporting failures

    A run reports its failures when any external call that ended with an
    error [e] is the last call of the run, and the run returns a value
    whose error component is [e]. *)
Definition reports_failures {K A : Type}
    (err_of : A -> option error) (o : Out K A) : Prop :=
  forall (pre : list IOEvent) (ev : IOEvent) (post : list IOEvent) (e : error),
    io o = pre ++ ev :: post ->
    io_error ev = Some e ->
    post = [] /\ exists a, res o = Val a /\ err_of a = Some e.

(** A run invents no error when every error it returns is the error of
    the last external call it made. *)
Definition invents_no_error {K A : Type}
    (err_of : A -> option error) (o : Out K A) : Prop :=
  forall (a : A) (e : error),
    res o = Val a ->
    err_of a = Some e ->
    exists (pre : list IOEvent) (ev : IOEvent),
      io o = pre ++ [ev] /\ io_error ev = Some e.

(** ** Logging

    [logs_to l o]: every log line of the run went to the logger [l].
    [same_run o o']: two runs agree on everything but their log lines. *)
Definition logs_to {K A : Type} (l : Logger) (o : Out K A) : Prop :=
  Forall (fun d : Logger * Msg => fst d = l) (diag o).

Definition same_run {K A : Type} (o o' : Out K A) : Prop :=
  res o = res o' /\ st o = st o' /\ io o = io o'.

(** ** A scripted bus

    A stand-in for the operating system with a fixed script: what
    opening and binding answer, the error (if any) every write and every
    read ends with, and the bytes the device will supply to reads.  As
    with the [Read] method of an [os.File], a read that gets no byte
    into a non-empty buffer ends with [EOF]. *)
Module TestDouble.

Record FakeBus : Type := mkFakeBus {
  open_answer : File + error;
  bind_errno : Z;
  write_error : option error;
  read_error : option error;
  supply : list byte
}.

#[export] Instance FakeOS : OS FakeBus := {
  os_OpenFile k _ _ _ := (k, open_answer k);
  sys_ioctl k _ _ _ := (k, bind_errno k);
  file_Write k _ buf :=
    match write_error k with
    | Some e => (k, (0, Some e))
    | None => (k, (len buf, None))
    end;
  file_Read k _ want :=
    match read_error k with
    | Some e => (k, ([], Some e))
    | None =>
        let n := Z.to_nat want in
        match firstn n (supply k), n with
        | [], S _ => (k, ([], Some EOF))
        | got, _ =>
            (mkFakeBus (open_answer k) (bind_errno k) (write_error k)
                       (read_error k) (skipn n (supply k)),
             (got, None))
        end
    end;
  file_Close k _ := (k, None)
}.

(** A healthy bus whose device supplies [bytes]. *)
Definition supplying (bytes : list byte) : FakeBus :=
  mkFakeBus (inl (mkFile 3)) 0 None None bytes.

(** The handle [NewI2C] makes on a healthy bus. *)
Definition handle : I2C := mkI2C (mkFile 3) LogrusNew.

Definition EIO : error := PathError "write" "/dev/i2c-1" 5.
Definition EREMOTEIO : error := PathError "read" "/dev/i2c-1" 121.

End TestDouble.

Import TestDouble.

(** * Properties *)

(** ** Bytes and words *)

Lemma byte_val_range (b : byte) : 0 <= byte_val b < 256.
Proof.
  unfold byte_val. pose proof (Byte.to_N_bounded b). lia.
Qed.

Lemma to_byte_val (b : byte) : to_byte (byte_val b) = b.
Proof.
  unfold to_byte. pose proof (byte_val_range b) as Hb.
  rewrite Z.mod_small by exact Hb.
  unfold byte_val. rewrite N2Z.id, Byte.of_to_N. reflexivity.
Qed.

Lemma byte_val_to_byte (z : Z) : byte_val (to_byte z) = z mod 256.
Proof.
  unfold to_byte, byte_val.
  pose proof (Z.mod_pos_bound z 256 ltac:(lia)) as Hm.
  destruct (Byte.of_N (Z.to_N (z mod 256))) as [b|] eqn:E.
  - apply Byte.to_of_N in E. rewrite E. lia.
  - apply Byte.of_N_None_iff in E. lia.
Qed.

Lemma to_byte_mod (z : Z) : to_byte (z mod 256) = to_byte z.
Proof.
  unfold to_byte. rewrite Z.mod_mod by lia. reflexivity.
Qed.

Lemma to_byte_congr (a b : Z) : a mod 256 = b mod 256 -> to_byte a = to_byte b.
Proof.
  intros E. unfold to_byte. rewrite E. reflexivity.
Qed.

Lemma to_byte_eq (z : Z) (b : byte) : z mod 256 = byte_val b -> to_byte z = b.
Proof.
  intros E. rewrite <- to_byte_mod, E. apply to_byte_val.
Qed.

Lemma land_low_byte (z : Z) : Z.land z 0xFF = z mod 256.
Proof. exact (Z.land_ones z 8 ltac:(lia)). Qed.

Lemma shiftr_8 (z : Z) : Z.shiftr z 8 = z / 256.
Proof. rewrite Z.shiftr_div_pow2 by lia. reflexivity. Qed.

Lemma shiftl_8 (z : Z) : Z.shiftl z 8 = z * 256.
Proof. rewrite Z.shiftl_mul_pow2 by lia. reflexivity. Qed.

(** [value & 0xFF00] keeps bits 8..15. *)
Lemma land_high_byte (z : Z) : Z.land z 0xFF00 = ((z / 256) mod 256) * 256.
Proof.
  replace 0xFF00 with (Z.shiftl (Z.ones 8) 8) by reflexivity.
  replace ((z / 256) mod 256) with (Z.land (Z.shiftr z 8) (Z.ones 8))
    by (rewrite shiftr_8; exact (Z.land_ones (z / 256) 8 ltac:(lia))).
  rewrite <- shiftl_8.
  apply Z.bits_inj'. intros i Hi.
  rewrite Z.land_spec.
  destruct (Z.ltb_spec i 8) as [Hlt|Hge].
  - rewrite !Z.shiftl_spec_low by lia. apply andb_false_r.
  - rewrite !Z.shiftl_spec by lia.
    rewrite Z.land_spec, Z.shiftr_spec by lia.
    replace (i - 8 + 8) with i by lia. reflexivity.
Qed.

(** A byte shifted up by eight bits shares no bit with a byte, so
    or-ing them is adding them. *)
Lemma lor_bytes (b0 b1 : byte) :
  Z.lor (Z.shiftl (byte_val b0) 8) (byte_val b1)
    = 256 * byte_val b0 + byte_val b1.
Proof.
  pose proof (byte_val_range b0) as H0.
  pose proof (byte_val_range b1) as H1.
  assert (Hdisj : Z.land (Z.shiftl (byte_val b0) 8) (byte_val b1) = 0).
  { apply Z.bits_inj'. intros i Hi.
    rewrite Z.land_spec, Z.bits_0.
    destruct (Z.ltb_spec i 8) as [Hlt|Hge].
    - rewrite Z.shiftl_spec_low by lia. reflexivity.
    - replace (Z.testbit (byte_val b1) i) with false; [apply andb_false_r|].
      symmetry. rewrite <- (Z.mod_small (byte_val b1) (2 ^ 8)) by lia.
      apply Z.mod_pow2_bits_high. lia. }
  rewrite <- Z.lxor_lor by exact Hdisj.
  rewrite <- Z.add_nocarry_lxor by exact Hdisj.
  rewrite shiftl_8. lia.
Qed.

Create Rewrite HintDb go_bits.
#[global] Hint Rewrite land_low_byte shiftr_8 shiftl_8 land_high_byte : go_bits.

Ltac go_arith :=
  unfold exchange_bytes_u16, exchange_bytes_s16, word_u16, word_s16,
         le_word_u16, le_word_s16,
         add_u16, shl_u16, shr_u16, mul_u16, add_s16, shl_s16, shr_s16,
         uint16, int16 in *;
  autorewrite with go_bits in *.

(** The big-endian word of two bytes, as the source computes it. *)
Lemma word_u16_value (b0 b1 : byte) :
  word_u16 b0 b1 = 256 * byte_val b0 + byte_val b1.
Proof.
  pose proof (byte_val_range b0). pose proof (byte_val_range b1).
  go_arith. Z.div_mod_to_equations. lia.
Qed.

Lemma word_s16_value (b0 b1 : byte) :
  word_s16 b0 b1 =
    if 256 * byte_val b0 + byte_val b1 <? 32768
    then 256 * byte_val b0 + byte_val b1
    else 256 * byte_val b0 + byte_val b1 - 65536.
Proof.
  pose proof (byte_val_range b0). pose proof (byte_val_range b1).
  destruct (Z.ltb_spec (256 * byte_val b0 + byte_val b1) 32768);
    go_arith; Z.div_mod_to_equations; lia.
Qed.

Lemma exchange_bytes_u16_value (hi lo : Z) :
  0 <= hi < 256 -> 0 <= lo < 256 ->
  exchange_bytes_u16 (256 * hi + lo) = 256 * lo + hi.
Proof.
  intros Hh Hl. go_arith. Z.div_mod_to_equations. lia.
Qed.

(** On a signed word the same expression exchanges the bytes only while
    the word is non-negative: [w>>8] of a negative word is negative, and
    adding it borrows one from the byte moved up. *)
Lemma exchange_bytes_s16_nonnegative (b0 b1 : byte) :
  byte_val b0 < 128 ->
  exchange_bytes_s16 (word_s16 b0 b1) = word_s16 b1 b0.
Proof.
  intros Hpos.
  pose proof (byte_val_range b0). pose proof (byte_val_range b1).
  go_arith. Z.div_mod_to_equations. lia.
Qed.

Lemma exchange_bytes_s16_negative (b0 b1 : byte) :
  128 <= byte_val b0 ->
  exchange_bytes_s16 (word_s16 b0 b1)
    = word_s16 (to_byte (byte_val b1 - 1)) b0.
Proof.
  intros Hneg.
  pose proof (byte_val_range b0). pose proof (byte_val_range b1).
  pose proof (byte_val_to_byte (byte_val b1 - 1)) as Hb.
  unfold exchange_bytes_s16, word_s16, add_s16, shl_s16, shr_s16, int16.
  rewrite Hb.
  autorewrite with go_bits.
  Z.div_mod_to_equations. lia.
Qed.

(** The word the little-endian writers hand to the big-endian ones
    carries the low byte of [value] on top and the low byte of
    [- value] below; the high byte of [value] is lost. *)
Lemma le_word_u16_value (hi lo : Z) :
  0 <= hi < 256 -> 0 <= lo < 256 ->
  le_word_u16 (256 * hi + lo) = 256 * lo + (- lo) mod 256.
Proof.
  intros Hh Hl. go_arith. Z.div_mod_to_equations. lia.
Qed.

(** ** Symbolic runs over an arbitrary operating system *)

Section Runs.

Context {K : Type} {os : OS K}.

Lemma len_repeat (n : Z) : 0 <= n -> len (repeat x00 (Z.to_nat n)) = n.
Proof.
  intros Hn. unfold len. rewrite repeat_length. lia.
Qed.


(** A read of exactly the bytes asked for replaces the buffer. *)
Lemma fill_exact (buf data : list byte) :
  List.length data = List.length buf -> fill buf data = data.
Proof.
  intros E. unfold fill. rewrite <- E, firstn_all, E, skipn_all.
  apply app_nil_r.
Qed.

(** *** How a sequence runs *)

Lemma bind_val {A B : Type} (m : M K A) (f : A -> M K B)
    (k k' : K) (a : A) (evs : list IOEvent) (ds : list (Logger * Msg)) :
  m k = mkOut (Val a) k' evs ds ->
  bind m f k =
    match f a k' with
    | mkOut r k'' evs' ds' => mkOut r k'' (evs ++ evs') (ds ++ ds')
    end.
Proof.
  intros E. unfold bind. rewrite E. reflexivity.
Qed.

Lemma bind_panic {A B : Type} (m : M K A) (f : A -> M K B)
    (k k' : K) (msg : string) (evs : list IOEvent)
    (ds : list (Logger * Msg)) :
  m k = mkOut (Panic msg) k' evs ds ->
  bind m f k = mkOut (Panic msg) k' evs ds.
Proof.
  intros E. unfold bind. rewrite E. reflexivity.
Qed.

(** *** The byte-stream methods *)

Lemma Debugf_run (l : Logger) (m : Msg) (k : K) :
  Debugf l m k = mkOut (Val tt) k [] [(l, m)].
Proof. reflexivity. Qed.

Lemma WriteBytes_run (v : I2C) (buf : list byte) (k k' : K)
    (n : Z) (err : option error) :
  file_Write k (rc v) buf = (k', (n, err)) ->
  WriteBytes v buf k =
    mkOut (Val (n, err)) k' [IoWrite (rc v) buf n err]
          [(log v, MsgWriteBytes (len buf) buf)].
Proof.
  intros E. unfold WriteBytes, write, File_Write, Debugf, bind.
  rewrite E. reflexivity.
Qed.

Lemma ReadBytes_run (v : I2C) (buf data : list byte) (k k' : K)
    (want : Z) (err : option error) :
  file_Read k (rc v) want = (k', (data, err)) ->
  want = len buf ->
  ReadBytes v buf k =
    mkOut (Val (fill buf data, len (firstn (List.length buf) data), err))
          k' [IoRead (rc v) want data err]
          match err with
          | Some _ => []
          | None => [(log v, MsgReadBytes (len (fill buf data))
                                          (fill buf data))]
          end.
Proof.
  intros E ->. unfold ReadBytes, read, File_Read, Debugf, bind, ret.
  rewrite E. destruct err; reflexivity.
Qed.

Lemma make_run (n : Z) (k : K) :
  0 <= n <= maxAlloc ->
  make n k = mkOut (Val (repeat x00 (Z.to_nat n))) k [] [].
Proof.
  intros Hn. unfold make.
  destruct (Z.ltb_spec n 0); [lia|].
  destruct (Z.ltb_spec maxAlloc n); [lia|reflexivity].
Qed.

Lemma length_cases (n : Z) :
  (n < 0 \/ maxAlloc < n) \/ 0 <= n <= maxAlloc.
Proof. lia. Qed.

Lemma make_out_of_range (n : Z) (k : K) :
  n < 0 \/ maxAlloc < n ->
  make n k =
    mkOut (Panic "runtime error: makeslice: len out of range") k [] [].
Proof.
  intros Hn. unfold make.
  destruct (Z.ltb_spec n 0); [reflexivity|].
  destruct (Z.ltb_spec maxAlloc n); [reflexivity|lia].
Qed.

Lemma index_run (buf : list byte) (i : nat) (b : byte) (k : K) :
  nth_error buf i = Some b -> index buf i k = mkOut (Val b) k [] [].
Proof.
  intros E. unfold index. rewrite E. reflexivity.
Qed.

(** [step_by lem] runs the first call of a sequence, given its answer. *)
Ltac side :=
  first [ eassumption | reflexivity | lia | unfold maxAlloc; lia
        | symmetry; apply len_repeat; lia ].

Ltac step_by lem :=
  erewrite bind_val by (eapply lem; side);
  cbv beta iota.

Ltac steps :=
  repeat first
    [ step_by WriteBytes_run
    | step_by ReadBytes_run
    | step_by make_run
    | step_by index_run
    | step_by Debugf_run
    | erewrite bind_panic
        by (eapply make_out_of_range; first [eassumption | lia]) ].

(** Two bytes are equal when their arguments agree modulo 256. *)
Ltac bytes_eq :=
  apply to_byte_congr; go_arith; Z.div_mod_to_equations; lia.

(** *** The register writers *)

Lemma WriteRegU8_run (v : I2C) (reg value : byte) (k k1 : K)
    (n : Z) (err : option error) :
  file_Write k (rc v) [reg; value] = (k1, (n, err)) ->
  io (WriteRegU8 v reg value k) = [IoWrite (rc v) [reg; value] n err] /\
  res (WriteRegU8 v reg value k) = Val err.
Proof.
  intros Hw. unfold WriteRegU8. steps. destruct err; steps; split; reflexivity.
Qed.

Lemma WriteRegU16BE_run (v : I2C) (reg : byte) (value : Z) (k k1 : K)
    (n : Z) (err : option error) :
  let buf := [reg; to_byte (shr_u16 (Z.land value 0xFF00) 8);
              to_byte (Z.land value 0xFF)] in
  file_Write k (rc v) buf = (k1, (n, err)) ->
  io (WriteRegU16BE v reg value k) = [IoWrite (rc v) buf n err] /\
  res (WriteRegU16BE v reg value k) = Val err.
Proof.
  intros buf Hw. unfold WriteRegU16BE. fold buf. steps.
  destruct err; steps; split; reflexivity.
Qed.

Lemma WriteRegS16BE_run (v : I2C) (reg : byte) (value : Z) (k k1 : K)
    (n : Z) (err : option error) :
  let buf := [reg; to_byte (shr_u16 (Z.land (uint16 value) 0xFF00) 8);
              to_byte (Z.land value 0xFF)] in
  file_Write k (rc v) buf = (k1, (n, err)) ->
  io (WriteRegS16BE v reg value k) = [IoWrite (rc v) buf n err] /\
  res (WriteRegS16BE v reg value k) = Val err.
Proof.
  intros buf Hw. unfold WriteRegS16BE. fold buf. steps.
  destruct err; steps; split; reflexivity.
Qed.

(** Whatever the write answers, a writer puts exactly one payload on
    the bus. *)
Lemma WriteRegU8_traffic (v : I2C) (reg value : byte) (k : K) :
  bus_traffic (io (WriteRegU8 v reg value k)) = [BusWrite [reg; value]].
Proof.
  destruct (file_Write k (rc v) [reg; value]) as [k1 [n err]] eqn:Hw.
  destruct (WriteRegU8_run v reg value k k1 n err Hw) as [-> _].
  reflexivity.
Qed.

Lemma WriteRegU16BE_traffic (v : I2C) (reg : byte) (value : Z) (k : K) :
  bus_traffic (io (WriteRegU16BE v reg value k)) =
    [BusWrite [reg; to_byte (value / 256); to_byte value]].
Proof.
  pose (buf := [reg; to_byte (shr_u16 (Z.land value 0xFF00) 8);
                to_byte (Z.land value 0xFF)]).
  destruct (file_Write k (rc v) buf) as [k1 [n err]] eqn:Hw.
  destruct (WriteRegU16BE_run v reg value k k1 n err Hw) as [-> _].
  cbn [bus_traffic]. do 4 f_equal; [bytes_eq | f_equal; bytes_eq].
Qed.

Lemma WriteRegS16BE_traffic (v : I2C) (reg : byte) (value : Z) (k : K) :
  bus_traffic (io (WriteRegS16BE v reg value k)) =
    [BusWrite [reg; to_byte (value / 256); to_byte value]].
Proof.
  pose (buf := [reg; to_byte (shr_u16 (Z.land (uint16 value) 0xFF00) 8);
                to_byte (Z.land value 0xFF)]).
  destruct (file_Write k (rc v) buf) as [k1 [n err]] eqn:Hw.
  destruct (WriteRegS16BE_run v reg value k k1 n err Hw) as [-> _].
  cbn [bus_traffic]. do 4 f_equal; [bytes_eq | f_equal; bytes_eq].
Qed.

(** What the little-endian writers put on the bus: the low byte of
    [value], then the low byte of [- value]. *)
Lemma WriteRegU16LE_traffic (v : I2C) (reg : byte) (value : Z) (k : K) :
  bus_traffic (io (WriteRegU16LE v reg value k)) =
    [BusWrite [reg; to_byte value; to_byte (- value)]].
Proof.
  unfold WriteRegU16LE. rewrite WriteRegU16BE_traffic.
  do 4 f_equal; [bytes_eq | f_equal; bytes_eq].
Qed.

Lemma WriteRegS16LE_traffic (v : I2C) (reg : byte) (value : Z) (k : K) :
  bus_traffic (io (WriteRegS16LE v reg value k)) =
    [BusWrite [reg; to_byte value; to_byte (- value)]].
Proof.
  unfold WriteRegS16LE. rewrite WriteRegS16BE_traffic.
  do 4 f_equal; [bytes_eq | f_equal; bytes_eq].
Qed.

(** *** The little-endian readers in terms of the big-endian ones *)

Lemma ReadRegU16LE_res (v : I2C) (reg : byte) (k : K) :
  res (ReadRegU16LE v reg k) =
    match res (ReadRegU16BE v reg k) with
    | Val (w, None) => Val (exchange_bytes_u16 w, None)
    | Val (_, Some e) => Val (0, Some e)
    | Panic msg => Panic msg
    end.
Proof.
  unfold ReadRegU16LE, bind.
  destruct (ReadRegU16BE v reg k) as [[[w [e|]]|msg] k' evs ds];
    reflexivity.
Qed.

Lemma ReadRegU16LE_io (v : I2C) (reg : byte) (k : K) :
  io (ReadRegU16LE v reg k) = io (ReadRegU16BE v reg k).
Proof.
  unfold ReadRegU16LE, bind.
  destruct (ReadRegU16BE v reg k) as [[[w [e|]]|msg] k' evs ds];
    cbn; rewrite ?app_nil_r; reflexivity.
Qed.

Lemma ReadRegS16LE_res (v : I2C) (reg : byte) (k : K) :
  res (ReadRegS16LE v reg k) =
    match res (ReadRegS16BE v reg k) with
    | Val (w, None) => Val (exchange_bytes_s16 w, None)
    | Val (_, Some e) => Val (0, Some e)
    | Panic msg => Panic msg
    end.
Proof.
  unfold ReadRegS16LE, bind.
  destruct (ReadRegS16BE v reg k) as [[[w [e|]]|msg] k' evs ds];
    reflexivity.
Qed.

Lemma ReadRegS16LE_io (v : I2C) (reg : byte) (k : K) :
  io (ReadRegS16LE v reg k) = io (ReadRegS16BE v reg k).
Proof.
  unfold ReadRegS16LE, bind.
  destruct (ReadRegS16BE v reg k) as [[[w [e|]]|msg] k' evs ds];
    cbn; rewrite ?app_nil_r; reflexivity.
Qed.

(** *** The big-endian readers on a device that answers *)

Lemma ReadRegU16BE_ok (v : I2C) (reg b0 b1 : byte) (k k1 k2 : K) (n : Z) :
  file_Write k (rc v) [reg] = (k1, (n, None)) ->
  file_Read k1 (rc v) 2 = (k2, ([b0; b1], None)) ->
  res (ReadRegU16BE v reg k) = Val (word_u16 b0 b1, None).
Proof.
  intros Hw Hr. unfold ReadRegU16BE. steps. reflexivity.
Qed.

Lemma ReadRegS16BE_ok (v : I2C) (reg b0 b1 : byte) (k k1 k2 : K) (n : Z) :
  file_Write k (rc v) [reg] = (k1, (n, None)) ->
  file_Read k1 (rc v) 2 = (k2, ([b0; b1], None)) ->
  res (ReadRegS16BE v reg k) = Val (word_s16 b0 b1, None).
Proof.
  intros Hw Hr. unfold ReadRegS16BE. steps. reflexivity.
Qed.

(** *** [ReadRegBytes], case by case *)

Lemma ReadRegBytes_write_fails (v : I2C) (reg : byte) (n : Z) (k k1 : K)
    (m : Z) (e : error) :
  file_Write k (rc v) [reg] = (k1, (m, Some e)) ->
  io (ReadRegBytes v reg n k) = [IoWrite (rc v) [reg] m (Some e)] /\
  res (ReadRegBytes v reg n k) = Val (None, 0, Some e).
Proof.
  intros Hw. unfold ReadRegBytes. steps. split; reflexivity.
Qed.

Lemma ReadRegBytes_panics (v : I2C) (reg : byte) (n : Z) (k k1 : K) (m : Z) :
  n < 0 \/ maxAlloc < n ->
  file_Write k (rc v) [reg] = (k1, (m, None)) ->
  io (ReadRegBytes v reg n k) = [IoWrite (rc v) [reg] m None] /\
  res (ReadRegBytes v reg n k) =
    Panic "runtime error: makeslice: len out of range".
Proof.
  intros Hn Hw. unfold ReadRegBytes. steps. split; reflexivity.
Qed.

Lemma ReadRegBytes_reads (v : I2C) (reg : byte) (n : Z) (k k1 k2 : K)
    (m : Z) (data : list byte) (err : option error) :
  0 <= n <= maxAlloc ->
  file_Write k (rc v) [reg] = (k1, (m, None)) ->
  file_Read k1 (rc v) n = (k2, (data, err)) ->
  io (ReadRegBytes v reg n k) =
    [IoWrite (rc v) [reg] m None; IoRead (rc v) n data err] /\
  res (ReadRegBytes v reg n k) =
    match err with
    | Some e => Val (None, 0, Some e)
    | None => Val (Some (fill (repeat x00 (Z.to_nat n)) data),
                   len (firstn (Z.to_nat n) data), None)
    end.
Proof.
  intros Hn Hw Hr. unfold ReadRegBytes. steps.
  rewrite repeat_length.
  destruct err; split; reflexivity.
Qed.

(** *** Failures are reported *)

(** Runs with at most two external calls are settled by looking at
    every way of splitting their event list. *)
Ltac split_events Hio :=
  match type of Hio with
  | _ = ?pre ++ _ :: _ =>
      destruct pre as [|? [|? [|? ?]]]; cbn in Hio;
      inversion Hio; subst; clear Hio
  end.

Ltac settle_report :=
  let pre := fresh "pre" in
  let Hio := fresh "Hio" in
  let He := fresh "He" in
  unfold reports_failures; cbn [io res];
  intros pre ? ? ? Hio He;
  split_events Hio; cbn in He; try discriminate;
  try match goal with
      | Hnil : [] = _ ++ _ :: _ |- _ =>
          exfalso; exact (app_cons_not_nil _ _ _ Hnil)
      end;
  inversion He; subst;
  (split; [reflexivity | eexists; split; reflexivity]).

Lemma ReadRegBytes_reports (v : I2C) (reg : byte) (n : Z) (k : K) :
  reports_failures snd (ReadRegBytes v reg n k).
Proof.
  destruct (file_Write k (rc v) [reg]) as [k1 [m [e|]]] eqn:Hw.
  - destruct (ReadRegBytes_write_fails v reg n k k1 m e Hw) as [Hio Hres].
    unfold reports_failures. rewrite Hio, Hres. settle_report.
  - destruct (length_cases n) as [Hneg|Hn].
    + destruct (ReadRegBytes_panics v reg n k k1 m Hneg Hw) as [Hio Hres].
      unfold reports_failures. rewrite Hio, Hres. settle_report.
    + destruct (file_Read k1 (rc v) n) as [k2 [data err]] eqn:Hr.
      destruct (ReadRegBytes_reads v reg n k k1 k2 m data err Hn Hw Hr)
        as [Hio Hres].
      unfold reports_failures. rewrite Hio, Hres.
      destruct err; settle_report.
Qed.

Lemma ReadRegU8_reports (v : I2C) (reg : byte) (k : K) :
  reports_failures snd (ReadRegU8 v reg k).
Proof.
  unfold ReadRegU8.
  destruct (file_Write k (rc v) [reg]) as [k1 [m [e|]]] eqn:Hw.
  - steps. settle_report.
  - destruct (file_Read k1 (rc v) 1) as [k2 [data [e|]]] eqn:Hr.
    + steps. settle_report.
    + destruct data as [|d0 rest]; steps; settle_report.
Qed.

Lemma ReadRegU16BE_reports (v : I2C) (reg : byte) (k : K) :
  reports_failures snd (ReadRegU16BE v reg k).
Proof.
  unfold ReadRegU16BE.
  destruct (file_Write k (rc v) [reg]) as [k1 [m [e|]]] eqn:Hw.
  - steps. settle_report.
  - destruct (file_Read k1 (rc v) 2) as [k2 [data [e|]]] eqn:Hr.
    + steps. settle_report.
    + destruct data as [|d0 [|d1 rest]]; steps; settle_report.
Qed.

Lemma ReadRegS16BE_reports (v : I2C) (reg : byte) (k : K) :
  reports_failures snd (ReadRegS16BE v reg k).
Proof.
  unfold ReadRegS16BE.
  destruct (file_Write k (rc v) [reg]) as [k1 [m [e|]]] eqn:Hw.
  - steps. settle_report.
  - destruct (file_Read k1 (rc v) 2) as [k2 [data [e|]]] eqn:Hr.
    + steps. settle_report.
    + destruct data as [|d0 [|d1 rest]]; steps; settle_report.
Qed.

(** A caller that only repackages the result of a reader keeps the
    report. *)
Lemma reports_through {A B : Type} (pa : A -> option error)
    (pb : B -> option error) (m : M K A) (f : A -> B) (k : K) :
  (forall a e, pa a = Some e -> pb (f a) = Some e) ->
  reports_failures pa (m k) ->
  reports_failures pb (bind m (fun a => ret (f a)) k).
Proof.
  intros Hf Hm. unfold reports_failures, bind, ret in *.
  destruct (m k) as [[a|msg] k' evs ds]; cbn [io res] in *;
    intros pre ev post e Hio He; rewrite ?app_nil_r in Hio;
    destruct (Hm pre ev post e Hio He) as [Hpost [a' [Ha' Hpa]]].
  - inversion Ha'; subst a'.
    split; [exact Hpost|]. exists (f a). split; [reflexivity|].
    apply Hf. exact Hpa.
  - discriminate Ha'.
Qed.

Lemma ReadRegU16LE_reports (v : I2C) (reg : byte) (k : K) :
  reports_failures snd (ReadRegU16LE v reg k).
Proof.
  pose proof (ReadRegU16BE_reports v reg k) as Hbe.
  unfold reports_failures in *.
  rewrite ReadRegU16LE_io, ReadRegU16LE_res.
  intros pre ev post e Hio He.
  destruct (Hbe pre ev post e Hio He) as [Hpost [[w err] [Hres Herr]]].
  cbn in Herr. subst err. rewrite Hres.
  split; [exact Hpost|]. eexists. split; reflexivity.
Qed.

Lemma ReadRegS16LE_reports (v : I2C) (reg : byte) (k : K) :
  reports_failures snd (ReadRegS16LE v reg k).
Proof.
  pose proof (ReadRegS16BE_reports v reg k) as Hbe.
  unfold reports_failures in *.
  rewrite ReadRegS16LE_io, ReadRegS16LE_res.
  intros pre ev post e Hio He.
  destruct (Hbe pre ev post e Hio He) as [Hpost [[w err] [Hres Herr]]].
  cbn in Herr. subst err. rewrite Hres.
  split; [exact Hpost|]. eexists. split; reflexivity.
Qed.

Lemma WriteRegU8_reports (v : I2C) (reg value : byte) (k : K) :
  reports_failures (fun err => err) (WriteRegU8 v reg value k).
Proof.
  destruct (file_Write k (rc v) [reg; value]) as [k1 [n err]] eqn:Hw.
  destruct (WriteRegU8_run v reg value k k1 n err Hw) as [Hio Hres].
  unfold reports_failures. rewrite Hio, Hres. settle_report.
Qed.

Lemma WriteRegU16BE_reports (v : I2C) (reg : byte) (value : Z) (k : K) :
  reports_failures (fun err => err) (WriteRegU16BE v reg value k).
Proof.
  pose (buf := [reg; to_byte (shr_u16 (Z.land value 0xFF00) 8);
                to_byte (Z.land value 0xFF)]).
  destruct (file_Write k (rc v) buf) as [k1 [n err]] eqn:Hw.
  destruct (WriteRegU16BE_run v reg value k k1 n err Hw) as [Hio Hres].
  unfold reports_failures. rewrite Hio, Hres. settle_report.
Qed.

Lemma WriteRegS16BE_reports (v : I2C) (reg : byte) (value : Z) (k : K) :
  reports_failures (fun err => err) (WriteRegS16BE v reg value k).
Proof.
  pose (buf := [reg; to_byte (shr_u16 (Z.land (uint16 value) 0xFF00) 8);
                to_byte (Z.land value 0xFF)]).
  destruct (file_Write k (rc v) buf) as [k1 [n err]] eqn:Hw.
  destruct (WriteRegS16BE_run v reg value k k1 n err Hw) as [Hio Hres].
  unfold reports_failures. rewrite Hio, Hres. settle_report.
Qed.

Lemma returned_error_reports (v : I2C) (op : RegOp) (k : K) :
  reports_failures (fun err => err) (returned_error v op k).
Proof.
  destruct op; unfold returned_error.
  - apply (reports_through snd); [auto | apply ReadRegBytes_reports].
  - apply (reports_through snd); [auto | apply ReadRegU8_reports].
  - apply WriteRegU8_reports.
  - apply (reports_through snd); [auto | apply ReadRegU16BE_reports].
  - apply (reports_through snd); [auto | apply ReadRegU16LE_reports].
  - apply (reports_through snd); [auto | apply ReadRegS16BE_reports].
  - apply (reports_through snd); [auto | apply ReadRegS16LE_reports].
  - apply WriteRegU16BE_reports.
  - apply WriteRegU16BE_reports.
  - apply WriteRegS16BE_reports.
  - apply WriteRegS16BE_reports.
Qed.

(** ** Reading words *)

(** C4: when the device supplies the wire bytes [b0; b1],
    [ReadRegU16BE] returns [b0<<8 | b1]; on [0x12; 0x34] it returns
    [0x1234] and [ReadRegU16LE] returns [0x3412]. *)
Theorem ReadRegU16_wire_order
    (v : I2C) (reg b0 b1 : byte) (k k1 k2 : K) (n : Z) :
  file_Write k (rc v) [reg] = (k1, (n, None)) ->
  file_Read k1 (rc v) 2 = (k2, ([b0; b1], None)) ->
  res (ReadRegU16BE v reg k)
    = Val (Z.lor (Z.shiftl (byte_val b0) 8) (byte_val b1), None) /\
  (b0 = x12 -> b1 = x34 ->
     res (ReadRegU16BE v reg k) = Val (0x1234, None) /\
     res (ReadRegU16LE v reg k) = Val (0x3412, None)).
Proof.
  intros Hw Hr.
  pose proof (ReadRegU16BE_ok v reg b0 b1 k k1 k2 n Hw Hr) as Hbe.
  split.
  - rewrite Hbe, word_u16_value, lor_bytes. reflexivity.
  - intros -> ->. split.
    + rewrite Hbe. reflexivity.
    + rewrite ReadRegU16LE_res, Hbe. reflexivity.
Qed.

(** C5: [ReadRegS16BE] reads the two wire bytes as a big-endian
    two's-complement 16-bit value: the unsigned word [256*b0 + b1],
    less 65536 when its top bit is set.  On [0xFF; 0xFF] it returns
    [-1], on [0x00; 0x01] it returns [1]. *)
Theorem ReadRegS16BE_twos_complement
    (v : I2C) (reg b0 b1 : byte) (k k1 k2 : K) (n : Z) :
  file_Write k (rc v) [reg] = (k1, (n, None)) ->
  file_Read k1 (rc v) 2 = (k2, ([b0; b1], None)) ->
  let u := 256 * byte_val b0 + byte_val b1 in
  res (ReadRegS16BE v reg k)
    = Val (if u <? 32768 then u else u - 65536, None) /\
  (b0 = xff -> b1 = xff -> res (ReadRegS16BE v reg k) = Val (-1, None)) /\
  (b0 = x00 -> b1 = x01 -> res (ReadRegS16BE v reg k) = Val (1, None)).
Proof.
  intros Hw Hr u.
  pose proof (ReadRegS16BE_ok v reg b0 b1 k k1 k2 n Hw Hr) as Hbe.
  repeat split.
  - rewrite Hbe, word_s16_value. reflexivity.
  - intros -> ->. rewrite Hbe. reflexivity.
  - intros -> ->. rewrite Hbe. reflexivity.
Qed.

(** C7: on every 16-bit unsigned value, the byte exchange of
    [ReadRegU16LE] applied twice gives the value back. *)
Theorem exchange_bytes_u16_involutive (w : Z) :
  0 <= w < 65536 ->
  exchange_bytes_u16 (exchange_bytes_u16 w) = w.
Proof.
  intros Hw.
  pose proof (Z.mod_pos_bound w 256 ltac:(lia)) as Hlo.
  assert (Hhi : 0 <= w / 256 < 256)
    by (split; [apply Z.div_pos; lia | apply Z.div_lt_upper_bound; lia]).
  assert (Hsplit : w = 256 * (w / 256) + w mod 256)
    by (apply Z.div_mod; lia).
  transitivity
    (exchange_bytes_u16 (exchange_bytes_u16 (256 * (w / 256) + w mod 256))).
  - rewrite <- Hsplit. reflexivity.
  - rewrite !exchange_bytes_u16_value by assumption.
    symmetry. exact Hsplit.
Qed.

(** ** Writing registers *)

(** C6: [WriteRegU8] puts exactly [reg; value] on the bus and
    [WriteRegU16BE] exactly [reg; high byte; low byte]; in particular
    [WriteRegU8(0x10, 0xAB)] writes [0x10; 0xAB] and
    [WriteRegU16BE(0x20, 0x1234)] writes [0x20; 0x12; 0x34]. *)
Theorem WriteReg_wire_sequences
    (v : I2C) (reg value hi lo : byte) (k : K) :
  bus_traffic (io (WriteRegU8 v reg value k)) = [BusWrite [reg; value]] /\
  bus_traffic (io (WriteRegU16BE v reg (256 * byte_val hi + byte_val lo) k))
    = [BusWrite [reg; hi; lo]] /\
  bus_traffic (io (WriteRegU8 v x10 xab k)) = [BusWrite [x10; xab]] /\
  bus_traffic (io (WriteRegU16BE v x20 0x1234 k))
    = [BusWrite [x20; x12; x34]].
Proof.
  pose proof (byte_val_range hi) as Hhi.
  pose proof (byte_val_range lo) as Hlo.
  split; [|split; [|split]].
  - apply WriteRegU8_traffic.
  - rewrite WriteRegU16BE_traffic.
    do 4 f_equal; [| f_equal]; apply to_byte_eq;
      Z.div_mod_to_equations; lia.
  - apply WriteRegU8_traffic.
  - rewrite WriteRegU16BE_traffic. reflexivity.
Qed.

(** ** The write-then-read sequence *)



(** ** Errors *)

(** C8: in every register operation, an underlying write or read that
    fails with error [e] is the last call the operation makes (nothing
    is retried or attempted after it), and the operation returns
    exactly [e], which is not the success result. *)
Theorem register_operations_report_io_errors
    (v : I2C) (op : RegOp) (k : K)
    (pre : list IOEvent) (ev : IOEvent) (post : list IOEvent) (e : error) :
  io (returned_error v op k) = pre ++ ev :: post ->
  io_error ev = Some e ->
  post = [] /\
  res (returned_error v op k) = Val (Some e) /\
  res (returned_error v op k) <> Val None.
Proof.
  intros Hio He.
  destruct (returned_error_reports v op k pre ev post e Hio He)
    as [Hpost [a [Hres Ha]]].
  subst a. rewrite Hres.
  split; [exact Hpost | split; [reflexivity | discriminate]].
Qed.

(** ** Opening the device *)

(** C9: when the device node opens but the bind request is rejected,
    [NewI2C] returns the error of the request and no handle, and its
    calls are the open and the ioctl only: the file is not closed. *)
Theorem NewI2C_bind_failure_leaves_file_open
    (addr : byte) (bus : Z) (k k1 k2 : K) (f : File) (errno : Z) :
  os_OpenFile k (device_path bus) O_RDWR perm0600 = (k1, inl f) ->
  sys_ioctl k1 (Fd f) i2cSlave (byte_val addr) = (k2, errno) ->
  errno <> 0 ->
  let o := NewI2C addr bus k in
  res o = Val (None, Some (Errno errno)) /\
  io o = [IoOpenFile (device_path bus) O_RDWR perm0600 (inl f);
          IoIoctl (Fd f) i2cSlave (byte_val addr) errno] /\
  closes (io o) = [].
Proof.
  intros Hopen Hbind Hne o.
  assert (Hrun : o = mkOut (Val (None, Some (Errno errno))) k2
                   [IoOpenFile (device_path bus) O_RDWR perm0600 (inl f);
                    IoIoctl (Fd f) i2cSlave (byte_val addr) errno] []).
  { subst o. unfold NewI2C, ioctl, OpenFile, Syscall_ioctl, bind, ret.
    rewrite Hopen, Hbind.
    destruct (Z.eqb_spec errno 0) as [E|_]; [contradiction|].
    reflexivity. }
  rewrite Hrun. split; [reflexivity | split; reflexivity].
Qed.

(** ** More on opening and closing *)

(** X1: when the device node cannot be opened, [NewI2C] returns that
    error and no handle, and the failed open is its only call: no bind
    request is made. *)
Theorem NewI2C_open_failure
    (addr : byte) (bus : Z) (k k1 : K) (err : error) :
  os_OpenFile k (device_path bus) O_RDWR perm0600 = (k1, inr err) ->
  let o := NewI2C addr bus k in
  res o = Val (None, Some err) /\
  io o = [IoOpenFile (device_path bus) O_RDWR perm0600 (inr err)] /\
  st o = k1.
Proof.
  intros Hopen o. subst o.
  unfold NewI2C, OpenFile, bind, ret. rewrite Hopen.
  split; [reflexivity | split; reflexivity].
Qed.

(** X2: when the open succeeds and the bind request returns errno 0,
    [NewI2C] returns a handle on the opened file with a new logger; its
    calls are the read-write open of the bus's device node and the
    [0x0703] request on that descriptor with the address as argument,
    and it logs nothing. *)
Theorem NewI2C_success
    (addr : byte) (bus : Z) (k k1 k2 : K) (f : File) :
  os_OpenFile k (device_path bus) O_RDWR perm0600 = (k1, inl f) ->
  sys_ioctl k1 (Fd f) i2cSlave (byte_val addr) = (k2, 0) ->
  let o := NewI2C addr bus k in
  res o = Val (Some (mkI2C f LogrusNew), None) /\
  io o = [IoOpenFile (device_path bus) 2 384 (inl f);
          IoIoctl (Fd f) 0x0703 (byte_val addr) 0] /\
  st o = k2 /\
  diag o = [].
Proof.
  intros Hopen Hbind o. subst o.
  unfold NewI2C, ioctl, OpenFile, Syscall_ioctl, bind, ret.
  rewrite Hopen, Hbind.
  split; [reflexivity | split; [reflexivity | split; reflexivity]].
Qed.

Lemma NewI2C_cases (addr : byte) (bus : Z) (k : K) :
  (exists f, res (NewI2C addr bus k) = Val (Some (mkI2C f LogrusNew), None) /\
             io (NewI2C addr bus k) =
               [IoOpenFile (device_path bus) O_RDWR perm0600 (inl f);
                IoIoctl (Fd f) i2cSlave (byte_val addr) 0]) \/
  (exists e, res (NewI2C addr bus k) = Val (None, Some e) /\
             closes (io (NewI2C addr bus k)) = []).
Proof.
  destruct (os_OpenFile k (device_path bus) O_RDWR perm0600)
    as [k1 [f|err]] eqn:Hopen.
  - destruct (sys_ioctl k1 (Fd f) i2cSlave (byte_val addr))
      as [k2 errno] eqn:Hbind.
    unfold NewI2C, ioctl, OpenFile, Syscall_ioctl, bind, ret.
    rewrite Hopen, Hbind.
    destruct (Z.eqb_spec errno 0) as [->|Hne].
    + left. exists f. split; reflexivity.
    + right. exists (Errno errno). split; reflexivity.
  - right. exists err.
    unfold NewI2C, OpenFile, bind, ret. rewrite Hopen.
    split; reflexivity.
Qed.

(** X3: [NewI2C] never panics and returns either a handle and no error
    or no handle and an error, never both and never neither; on no path
    does it close a file. *)
Theorem NewI2C_handle_xor_error (addr : byte) (bus : Z) (k : K) :
  ((exists v, res (NewI2C addr bus k) = Val (Some v, None)) \/
   (exists e, res (NewI2C addr bus k) = Val (None, Some e))) /\
  closes (io (NewI2C addr bus k)) = [].
Proof.
  destruct (NewI2C_cases addr bus k) as [[f [Hres Hio]]|[e [Hres Hc]]].
  - split; [left; eexists; exact Hres|]. rewrite Hio. reflexivity.
  - split; [right; eexists; exact Hres | exact Hc].
Qed.

(** X4: closing the handle [NewI2C] returned issues one close, on the
    file that [NewI2C] opened, and returns that close's answer. *)
Theorem NewI2C_then_Close (addr : byte) (bus : Z) (k : K) (v : I2C) :
  res (NewI2C addr bus k) = Val (Some v, None) ->
  let o := NewI2C addr bus k in
  let c := Close v (st o) in
  exists f,
    io o = [IoOpenFile (device_path bus) O_RDWR perm0600 (inl f);
            IoIoctl (Fd f) i2cSlave (byte_val addr) 0] /\
    io c = [IoClose f (snd (file_Close (st o) f))] /\
    closes (io o ++ io c) = [f] /\
    res c = Val (snd (file_Close (st o) f)).
Proof.
  intros Hres o c. subst o c.
  destruct (NewI2C_cases addr bus k) as [[f [Hv Hio]]|[e [He _]]].
  - rewrite Hv in Hres. inversion Hres; subst v. exists f.
    rewrite Hio. unfold Close, File_Close. cbn [rc].
    destruct (file_Close (st (NewI2C addr bus k)) f) as [k3 cerr].
    split; [reflexivity | split; [reflexivity | split; reflexivity]].
  - rewrite He in Hres. discriminate Hres.
Qed.

(** ** More on the byte stream *)



(** X20: when the read fails, [ReadBytes] returns the error of the read
    and emits no trace line. *)
Theorem ReadBytes_error_is_silent
    (v : I2C) (buf data : list byte) (k k1 : K) (e : error) :
  file_Read k (rc v) (len buf) = (k1, (data, Some e)) ->
  diag (ReadBytes v buf k) = [] /\
  exists buf' n, res (ReadBytes v buf k) = Val (buf', n, Some e).
Proof.
  intros Hr.
  rewrite (ReadBytes_run v buf data k k1 (len buf) (Some e) Hr eq_refl).
  split; [reflexivity | eexists; eexists; reflexivity].
Qed.

(** ** More on the register readers *)

(** The three readers that talk to the device, once the selector write
    has succeeded, for whatever the read answers.  A byte the device did
    not supply is read as zero. *)
Lemma ReadRegU8_reads (v : I2C) (reg : byte) (k k1 k2 : K)
    (m : Z) (data : list byte) (err : option error) :
  file_Write k (rc v) [reg] = (k1, (m, None)) ->
  file_Read k1 (rc v) 1 = (k2, (data, err)) ->
  io (ReadRegU8 v reg k) =
    [IoWrite (rc v) [reg] m None; IoRead (rc v) 1 data err] /\
  res (ReadRegU8 v reg k) =
    match err with
    | Some e => Val (x00, Some e)
    | None => Val (nth 0 data x00, None)
    end.
Proof.
  intros Hw Hr. unfold ReadRegU8.
  destruct err; destruct data as [|d0 rest]; steps; split; reflexivity.
Qed.

Lemma ReadRegU16BE_reads (v : I2C) (reg : byte) (k k1 k2 : K)
    (m : Z) (data : list byte) (err : option error) :
  file_Write k (rc v) [reg] = (k1, (m, None)) ->
  file_Read k1 (rc v) 2 = (k2, (data, err)) ->
  io (ReadRegU16BE v reg k) =
    [IoWrite (rc v) [reg] m None; IoRead (rc v) 2 data err] /\
  res (ReadRegU16BE v reg k) =
    match err with
    | Some e => Val (0, Some e)
    | None => Val (word_u16 (nth 0 data x00) (nth 1 data x00), None)
    end.
Proof.
  intros Hw Hr. unfold ReadRegU16BE.
  destruct err; destruct data as [|d0 [|d1 rest]]; steps; split; reflexivity.
Qed.

Lemma ReadRegS16BE_reads (v : I2C) (reg : byte) (k k1 k2 : K)
    (m : Z) (data : list byte) (err : option error) :
  file_Write k (rc v) [reg] = (k1, (m, None)) ->
  file_Read k1 (rc v) 2 = (k2, (data, err)) ->
  io (ReadRegS16BE v reg k) =
    [IoWrite (rc v) [reg] m None; IoRead (rc v) 2 data err] /\
  res (ReadRegS16BE v reg k) =
    match err with
    | Some e => Val (0, Some e)
    | None => Val (word_s16 (nth 0 data x00) (nth 1 data x00), None)
    end.
Proof.
  intros Hw Hr. unfold ReadRegS16BE.
  destruct err; destruct data as [|d0 [|d1 rest]]; steps; split; reflexivity.
Qed.

Lemma ReadRegU8_write_fails (v : I2C) (reg : byte) (k k1 : K)
    (m : Z) (e : error) :
  file_Write k (rc v) [reg] = (k1, (m, Some e)) ->
  io (ReadRegU8 v reg k) = [IoWrite (rc v) [reg] m (Some e)] /\
  res (ReadRegU8 v reg k) = Val (x00, Some e).
Proof.
  intros Hw. unfold ReadRegU8. steps. split; reflexivity.
Qed.

Lemma ReadRegU16BE_write_fails (v : I2C) (reg : byte) (k k1 : K)
    (m : Z) (e : error) :
  file_Write k (rc v) [reg] = (k1, (m, Some e)) ->
  io (ReadRegU16BE v reg k) = [IoWrite (rc v) [reg] m (Some e)] /\
  res (ReadRegU16BE v reg k) = Val (0, Some e).
Proof.
  intros Hw. unfold ReadRegU16BE. steps. split; reflexivity.
Qed.

Lemma ReadRegS16BE_write_fails (v : I2C) (reg : byte) (k k1 : K)
    (m : Z) (e : error) :
  file_Write k (rc v) [reg] = (k1, (m, Some e)) ->
  io (ReadRegS16BE v reg k) = [IoWrite (rc v) [reg] m (Some e)] /\
  res (ReadRegS16BE v reg k) = Val (0, Some e).
Proof.
  intros Hw. unfold ReadRegS16BE. steps. split; reflexivity.
Qed.

Lemma word_s16_int16 (b0 b1 : byte) :
  word_s16 b0 b1 = int16 (256 * byte_val b0 + byte_val b1).
Proof.
  pose proof (byte_val_range b0). pose proof (byte_val_range b1).
  go_arith. Z.div_mod_to_equations. lia.
Qed.

(** X7: each fixed-width register reader puts on the bus the single
    selector byte and then, only if that write succeeded, one read
    request: for 1 byte in [ReadRegU8], for 2 bytes in the four 16-bit
    readers.  Nothing else reaches the bus, whatever the read answers. *)
Theorem readers_write_then_read (v : I2C) (reg : byte) (k : K) :
  let shape (want : Z) :=
    match snd (snd (file_Write k (rc v) [reg])) with
    | Some _ => [BusWrite [reg]]
    | None => [BusWrite [reg]; BusRead want]
    end in
  bus_traffic (io (ReadRegU8 v reg k)) = shape 1 /\
  bus_traffic (io (ReadRegU16BE v reg k)) = shape 2 /\
  bus_traffic (io (ReadRegU16LE v reg k)) = shape 2 /\
  bus_traffic (io (ReadRegS16BE v reg k)) = shape 2 /\
  bus_traffic (io (ReadRegS16LE v reg k)) = shape 2.
Proof.
  intros shape. subst shape. cbv beta.
  rewrite ReadRegU16LE_io, ReadRegS16LE_io.
  destruct (file_Write k (rc v) [reg]) as [k1 [m [e|]]] eqn:Hw; cbn [fst snd].
  - destruct (ReadRegU8_write_fails v reg k k1 m e Hw) as [-> _].
    destruct (ReadRegU16BE_write_fails v reg k k1 m e Hw) as [-> _].
    destruct (ReadRegS16BE_write_fails v reg k k1 m e Hw) as [-> _].
    repeat (split; [reflexivity|]). reflexivity.
  - destruct (file_Read k1 (rc v) 1) as [k2 [d1 e1]] eqn:Hr1.
    destruct (file_Read k1 (rc v) 2) as [k3 [d2 e2]] eqn:Hr2.
    destruct (ReadRegU8_reads v reg k k1 k2 m d1 e1 Hw Hr1) as [-> _].
    destruct (ReadRegU16BE_reads v reg k k1 k3 m d2 e2 Hw Hr2) as [-> _].
    destruct (ReadRegS16BE_reads v reg k k1 k3 m d2 e2 Hw Hr2) as [-> _].
    repeat (split; [reflexivity|]). reflexivity.
Qed.

(** X8: when the write and the read succeed, [ReadRegU8] returns the
    first byte the read supplied, and no error. *)
Theorem ReadRegU8_returns_first_byte
    (v : I2C) (reg b : byte) (k k1 k2 : K) (m : Z) (rest : list byte) :
  file_Write k (rc v) [reg] = (k1, (m, None)) ->
  file_Read k1 (rc v) 1 = (k2, (b :: rest, None)) ->
  res (ReadRegU8 v reg k) = Val (b, None).
Proof.
  intros Hw Hr.
  destruct (ReadRegU8_reads v reg k k1 k2 m (b :: rest) None Hw Hr)
    as [_ ->].
  reflexivity.
Qed.

(** X9: the 16-bit big-endian readers do not look at the count of
    bytes read: after a read without error they build the word from the
    first two bytes supplied, taking zero for a byte that was not
    supplied and ignoring any further byte; no error is returned. *)
Theorem word_readers_ignore_count
    (v : I2C) (reg : byte) (k k1 k2 : K) (m : Z) (data : list byte) :
  file_Write k (rc v) [reg] = (k1, (m, None)) ->
  file_Read k1 (rc v) 2 = (k2, (data, None)) ->
  let b0 := byte_val (nth 0 data x00) in
  let b1 := byte_val (nth 1 data x00) in
  res (ReadRegU16BE v reg k) = Val (256 * b0 + b1, None) /\
  res (ReadRegS16BE v reg k) = Val (int16 (256 * b0 + b1), None).
Proof.
  intros Hw Hr b0 b1. subst b0 b1.
  destruct (ReadRegU16BE_reads v reg k k1 k2 m data None Hw Hr) as [_ ->].
  destruct (ReadRegS16BE_reads v reg k k1 k2 m data None Hw Hr) as [_ ->].
  rewrite word_u16_value, word_s16_int16. split; reflexivity.
Qed.

(** X10: on the wire bytes [b0; b1], [ReadRegU16LE] returns the
    little-endian word [b1<<8 | b0], that is [256*b1 + b0]. *)
Theorem ReadRegU16LE_little_endian
    (v : I2C) (reg b0 b1 : byte) (k k1 k2 : K) (m : Z) :
  file_Write k (rc v) [reg] = (k1, (m, None)) ->
  file_Read k1 (rc v) 2 = (k2, ([b0; b1], None)) ->
  res (ReadRegU16LE v reg k)
    = Val (Z.lor (Z.shiftl (byte_val b1) 8) (byte_val b0), None) /\
  res (ReadRegU16LE v reg k) = Val (256 * byte_val b1 + byte_val b0, None).
Proof.
  intros Hw Hr.
  assert (E : res (ReadRegU16LE v reg k)
              = Val (256 * byte_val b1 + byte_val b0, None)).
  { rewrite ReadRegU16LE_res.
    rewrite (ReadRegU16BE_ok v reg b0 b1 k k1 k2 m Hw Hr).
    rewrite word_u16_value.
    rewrite exchange_bytes_u16_value by apply byte_val_range.
    reflexivity. }
  split; [|exact E]. rewrite E, lor_bytes. reflexivity.
Qed.

(** X11: on the wire bytes [b0; b1], [ReadRegS16LE] returns the signed
    little-endian word of [b1; b0] when [b0 < 0x80]; when [b0 >= 0x80]
    it returns the signed value of that word less [256] (one less in
    the byte that came from [b1]). *)
Theorem ReadRegS16LE_value
    (v : I2C) (reg b0 b1 : byte) (k k1 k2 : K) (m : Z) :
  file_Write k (rc v) [reg] = (k1, (m, None)) ->
  file_Read k1 (rc v) 2 = (k2, ([b0; b1], None)) ->
  res (ReadRegS16LE v reg k)
    = Val (int16 (256 * byte_val b1 + byte_val b0
                  - (if byte_val b0 <? 128 then 0 else 256)), None).
Proof.
  intros Hw Hr.
  rewrite ReadRegS16LE_res.
  rewrite (ReadRegS16BE_ok v reg b0 b1 k k1 k2 m Hw Hr).
  do 2 f_equal.
  pose proof (byte_val_range b0). pose proof (byte_val_range b1).
  destruct (Z.ltb_spec (byte_val b0) 128);
    go_arith; Z.div_mod_to_equations; lia.
Qed.

(** ** Where errors and panics come from *)

Lemma bind_ret_res {A B : Type} (m : M K A) (f : A -> B) (k : K) :
  res (bind m (fun a => ret (f a)) k) =
    match res (m k) with
    | Val a => Val (f a)
    | Panic msg => Panic msg
    end.
Proof.
  unfold bind, ret. destruct (m k) as [[a|msg] k' evs ds]; reflexivity.
Qed.

Lemma bind_ret_io {A B : Type} (m : M K A) (f : A -> B) (k : K) :
  io (bind m (fun a => ret (f a)) k) = io (m k).
Proof.
  unfold bind, ret. destruct (m k) as [[a|msg] k' evs ds]; cbn;
    rewrite ?app_nil_r; reflexivity.
Qed.

Lemma failed_last_of_one (ev : IOEvent) (e : error) :
  io_error ev = Some e ->
  exists pre ev', [ev] = pre ++ [ev'] /\ io_error ev' = Some e.
Proof.
  intros He. exists [], ev. split; [reflexivity | exact He].
Qed.

Lemma failed_last_of_two (ev0 ev : IOEvent) (e : error) :
  io_error ev = Some e ->
  exists pre ev', [ev0; ev] = pre ++ [ev'] /\ io_error ev' = Some e.
Proof.
  intros He. exists [ev0], ev. split; [reflexivity | exact He].
Qed.

Ltac settle_origin :=
  let Hres := fresh "Hres" in
  let Herr := fresh "Herr" in
  unfold invents_no_error; cbn [io res];
  intros ? ? Hres Herr; inversion Hres; subst; cbn in Herr;
  try discriminate; inversion Herr; subst;
  first [ apply failed_last_of_one; reflexivity
        | apply failed_last_of_two; reflexivity ].

Ltac settle_writer_origin :=
  let Hres := fresh "Hres" in
  let Herr := fresh "Herr" in
  unfold invents_no_error; cbn [io res];
  intros ? ? Hres Herr; cbn in Herr; subst;
  inversion Hres; subst;
  apply failed_last_of_one; reflexivity.

Lemma ReadRegBytes_origin (v : I2C) (reg : byte) (n : Z) (k : K) :
  invents_no_error snd (ReadRegBytes v reg n k).
Proof.
  destruct (file_Write k (rc v) [reg]) as [k1 [m [e|]]] eqn:Hw.
  - destruct (ReadRegBytes_write_fails v reg n k k1 m e Hw) as [Hio Hres].
    unfold invents_no_error. rewrite Hio, Hres. settle_origin.
  - destruct (length_cases n) as [Hneg|Hn].
    + destruct (ReadRegBytes_panics v reg n k k1 m Hneg Hw) as [Hio Hres].
      unfold invents_no_error. rewrite Hio, Hres. intros a e Ha. discriminate.
    + destruct (file_Read k1 (rc v) n) as [k2 [data err]] eqn:Hr.
      destruct (ReadRegBytes_reads v reg n k k1 k2 m data err Hn Hw Hr)
        as [Hio Hres].
      unfold invents_no_error. rewrite Hio, Hres.
      destruct err; settle_origin.
Qed.

Lemma ReadRegU8_origin (v : I2C) (reg : byte) (k : K) :
  invents_no_error snd (ReadRegU8 v reg k) /\
  exists r, res (ReadRegU8 v reg k) = Val r.
Proof.
  destruct (file_Write k (rc v) [reg]) as [k1 [m [e|]]] eqn:Hw.
  - destruct (ReadRegU8_write_fails v reg k k1 m e Hw) as [Hio Hres].
    unfold invents_no_error. rewrite Hio, Hres.
    split; [settle_origin | eexists; reflexivity].
  - destruct (file_Read k1 (rc v) 1) as [k2 [data err]] eqn:Hr.
    destruct (ReadRegU8_reads v reg k k1 k2 m data err Hw Hr) as [Hio Hres].
    unfold invents_no_error. rewrite Hio, Hres.
    destruct err; (split; [settle_origin | eexists; reflexivity]).
Qed.

Lemma ReadRegU16BE_origin (v : I2C) (reg : byte) (k : K) :
  invents_no_error snd (ReadRegU16BE v reg k) /\
  exists r, res (ReadRegU16BE v reg k) = Val r.
Proof.
  destruct (file_Write k (rc v) [reg]) as [k1 [m [e|]]] eqn:Hw.
  - destruct (ReadRegU16BE_write_fails v reg k k1 m e Hw) as [Hio Hres].
    unfold invents_no_error. rewrite Hio, Hres.
    split; [settle_origin | eexists; reflexivity].
  - destruct (file_Read k1 (rc v) 2) as [k2 [data err]] eqn:Hr.
    destruct (ReadRegU16BE_reads v reg k k1 k2 m data err Hw Hr)
      as [Hio Hres].
    unfold invents_no_error. rewrite Hio, Hres.
    destruct err; (split; [settle_origin | eexists; reflexivity]).
Qed.

Lemma ReadRegS16BE_origin (v : I2C) (reg : byte) (k : K) :
  invents_no_error snd (ReadRegS16BE v reg k) /\
  exists r, res (ReadRegS16BE v reg k) = Val r.
Proof.
  destruct (file_Write k (rc v) [reg]) as [k1 [m [e|]]] eqn:Hw.
  - destruct (ReadRegS16BE_write_fails v reg k k1 m e Hw) as [Hio Hres].
    unfold invents_no_error. rewrite Hio, Hres.
    split; [settle_origin | eexists; reflexivity].
  - destruct (file_Read k1 (rc v) 2) as [k2 [data err]] eqn:Hr.
    destruct (ReadRegS16BE_reads v reg k k1 k2 m data err Hw Hr)
      as [Hio Hres].
    unfold invents_no_error. rewrite Hio, Hres.
    destruct err; (split; [settle_origin | eexists; reflexivity]).
Qed.

Lemma ReadRegU16LE_origin (v : I2C) (reg : byte) (k : K) :
  invents_no_error snd (ReadRegU16LE v reg k) /\
  exists r, res (ReadRegU16LE v reg k) = Val r.
Proof.
  destruct (ReadRegU16BE_origin v reg k) as [Hbe [[w err] Hval]].
  unfold invents_no_error in *.
  rewrite ReadRegU16LE_io, ReadRegU16LE_res, Hval.
  split.
  - intros a e Ha Hsnd. apply (Hbe (w, err) e Hval).
    destruct err; inversion Ha; subst; exact Hsnd.
  - destruct err; eexists; reflexivity.
Qed.

Lemma ReadRegS16LE_origin (v : I2C) (reg : byte) (k : K) :
  invents_no_error snd (ReadRegS16LE v reg k) /\
  exists r, res (ReadRegS16LE v reg k) = Val r.
Proof.
  destruct (ReadRegS16BE_origin v reg k) as [Hbe [[w err] Hval]].
  unfold invents_no_error in *.
  rewrite ReadRegS16LE_io, ReadRegS16LE_res, Hval.
  split.
  - intros a e Ha Hsnd. apply (Hbe (w, err) e Hval).
    destruct err; inversion Ha; subst; exact Hsnd.
  - destruct err; eexists; reflexivity.
Qed.

Lemma WriteRegU8_origin (v : I2C) (reg value : byte) (k : K) :
  invents_no_error (fun err => err) (WriteRegU8 v reg value k) /\
  exists r, res (WriteRegU8 v reg value k) = Val r.
Proof.
  destruct (file_Write k (rc v) [reg; value]) as [k1 [n err]] eqn:Hw.
  destruct (WriteRegU8_run v reg value k k1 n err Hw) as [Hio Hres].
  unfold invents_no_error. rewrite Hio, Hres.
  split; [settle_writer_origin | eexists; reflexivity].
Qed.

Lemma WriteRegU16BE_origin (v : I2C) (reg : byte) (value : Z) (k : K) :
  invents_no_error (fun err => err) (WriteRegU16BE v reg value k) /\
  exists r, res (WriteRegU16BE v reg value k) = Val r.
Proof.
  pose (buf := [reg; to_byte (shr_u16 (Z.land value 0xFF00) 8);
                to_byte (Z.land value 0xFF)]).
  destruct (file_Write k (rc v) buf) as [k1 [n err]] eqn:Hw.
  destruct (WriteRegU16BE_run v reg value k k1 n err Hw) as [Hio Hres].
  unfold invents_no_error. rewrite Hio, Hres.
  split; [settle_writer_origin | eexists; reflexivity].
Qed.

Lemma WriteRegS16BE_origin (v : I2C) (reg : byte) (value : Z) (k : K) :
  invents_no_error (fun err => err) (WriteRegS16BE v reg value k) /\
  exists r, res (WriteRegS16BE v reg value k) = Val r.
Proof.
  pose (buf := [reg; to_byte (shr_u16 (Z.land (uint16 value) 0xFF00) 8);
                to_byte (Z.land value 0xFF)]).
  destruct (file_Write k (rc v) buf) as [k1 [n err]] eqn:Hw.
  destruct (WriteRegS16BE_run v reg value k k1 n err Hw) as [Hio Hres].
  unfold invents_no_error. rewrite Hio, Hres.
  split; [settle_writer_origin | eexists; reflexivity].
Qed.

(** A caller that only repackages a reader's result invents nothing
    either. *)
Lemma origin_through {A : Type} (m : M K A) (pa : A -> option error) (k : K) :
  invents_no_error pa (m k) ->
  invents_no_error (fun err => err) (bind m (fun a => ret (pa a)) k).
Proof.
  unfold invents_no_error. rewrite bind_ret_io, bind_ret_res.
  intros Hm b e Hb Hbe. subst b.
  destruct (res (m k)) as [a|msg] eqn:Ha; [|discriminate Hb].
  inversion Hb as [Hpa].
  destruct (Hm a e eq_refl Hpa) as [pre [ev [Hio He]]].
  exists pre, ev. split; [exact Hio | congruence].
Qed.


(** X12: a register operation returns an error only if its last
    external call failed with exactly that error: it never makes up an
    error of its own. *)
Theorem register_operations_invent_no_error
    (v : I2C) (op : RegOp) (k : K) (e : error) :
  res (returned_error v op k) = Val (Some e) ->
  exists (pre : list IOEvent) (ev : IOEvent),
    io (returned_error v op k) = pre ++ [ev] /\ io_error ev = Some e.
Proof.
  intros Hres.
  assert (Hop : invents_no_error (fun err => err) (returned_error v op k)).
  { destruct op; unfold returned_error.
    - apply (origin_through _ snd), ReadRegBytes_origin.
    - apply (origin_through _ snd), ReadRegU8_origin.
    - apply WriteRegU8_origin.
    - apply (origin_through _ snd), ReadRegU16BE_origin.
    - apply (origin_through _ snd), ReadRegU16LE_origin.
    - apply (origin_through _ snd), ReadRegS16BE_origin.
    - apply (origin_through _ snd), ReadRegS16LE_origin.
    - apply WriteRegU16BE_origin.
    - apply WriteRegU16BE_origin.
    - apply WriteRegS16BE_origin.
    - apply WriteRegS16BE_origin. }
  exact (Hop (Some e) e Hres eq_refl).
Qed.


(** ** The buffer of [ReadRegBytes] *)

Lemma skipn_repeat_zero (j m : nat) :
  skipn j (repeat x00 m) = repeat x00 (m - j).
Proof.
  revert m. induction j as [|j IH]; intros m.
  - rewrite Nat.sub_0_r. reflexivity.
  - destruct m as [|m]; [reflexivity|]. cbn. apply IH.
Qed.

(** A read into a fresh buffer leaves the bytes received followed by
    zeros. *)
Lemma fill_fresh (m : nat) (data : list byte) :
  fill (repeat x00 m) data =
    firstn m data ++ repeat x00 (m - Nat.min m (List.length data)).
Proof.
  unfold fill. rewrite repeat_length, length_firstn, skipn_repeat_zero.
  reflexivity.
Qed.

Lemma ReadRegBytes_fresh_buffer
    (v : I2C) (reg : byte) (n : Z) (k k1 k2 : K) (m : Z) (data : list byte) :
  0 <= n <= maxAlloc ->
  file_Write k (rc v) [reg] = (k1, (m, None)) ->
  file_Read k1 (rc v) n = (k2, (data, None)) ->
  let c := Z.min n (len data) in
  let buf := firstn (Z.to_nat c) data ++ repeat x00 (Z.to_nat (n - c)) in
  res (ReadRegBytes v reg n k) = Val (Some buf, c, None) /\
  len buf = n.
Proof.
  intros Hn Hw Hr c buf.
  destruct (ReadRegBytes_reads v reg n k k1 k2 m data None Hn Hw Hr)
    as [_ Hres].
  rewrite Hres, fill_fresh.
  assert (Hc : len (firstn (Z.to_nat n) data) = c).
  { unfold len. rewrite length_firstn. subst c. unfold len. lia. }
  assert (Hfirst : firstn (Z.to_nat n) data = firstn (Z.to_nat c) data).
  { subst c. unfold len.
    destruct (Nat.le_gt_cases (Z.to_nat n) (List.length data)) as [Hle|Hgt].
    - rewrite Z.min_l by lia. reflexivity.
    - rewrite Z.min_r by lia. rewrite Nat2Z.id.
      rewrite firstn_all. apply firstn_all2. lia. }
  assert (Hpad : (Z.to_nat n - Nat.min (Z.to_nat n) (List.length data))%nat
                 = Z.to_nat (n - c)).
  { subst c. unfold len. lia. }
  rewrite Hc, Hfirst, Hpad. split; [reflexivity|].
  subst buf. unfold len. rewrite length_app, repeat_length, length_firstn.
  subst c. unfold len. lia.
Qed.


(** X15: whenever [ReadRegBytes] returns, its result is either an error
    with a nil buffer and count 0, or no error with a buffer of exactly
    [n] bytes and a count between 0 and [n]; it never returns a buffer
    together with an error. *)
Theorem ReadRegBytes_result_shape
    (v : I2C) (reg : byte) (n : Z) (k : K)
    (b : option (list byte)) (c : Z) (err : option error) :
  res (ReadRegBytes v reg n k) = Val (b, c, err) ->
  match err with
  | Some _ => b = None /\ c = 0
  | None => exists buf, b = Some buf /\ len buf = n /\ 0 <= c <= n
  end.
Proof.
  intros Hres.
  destruct (file_Write k (rc v) [reg]) as [k1 [m [e|]]] eqn:Hw.
  - destruct (ReadRegBytes_write_fails v reg n k k1 m e Hw) as [_ E].
    rewrite E in Hres. inversion Hres; subst. split; reflexivity.
  - destruct (length_cases n) as [Hneg|Hn].
    + destruct (ReadRegBytes_panics v reg n k k1 m Hneg Hw) as [_ E].
      rewrite E in Hres. discriminate Hres.
    + destruct (file_Read k1 (rc v) n) as [k2 [data [e|]]] eqn:Hr.
      * destruct (ReadRegBytes_reads v reg n k k1 k2 m data _ Hn Hw Hr)
          as [_ E].
        rewrite E in Hres. inversion Hres; subst. split; reflexivity.
      * destruct (ReadRegBytes_fresh_buffer v reg n k k1 k2 m data Hn Hw Hr)
          as [E Hlen].
        rewrite E in Hres. inversion Hres; subst.
        eexists. split; [reflexivity|]. split; [exact Hlen|].
        unfold len. lia.
Qed.

(** ** More on the register writers *)

(** X16: the big-endian writers undo the big-endian readers: the word
    that [ReadRegU16BE] (resp. [ReadRegS16BE]) returns for the wire
    bytes [b0; b1] is written back by [WriteRegU16BE] (resp.
    [WriteRegS16BE]) as exactly [reg'; b0; b1]. *)
Theorem big_endian_read_write_round_trip
    (v : I2C) (reg reg' b0 b1 : byte) (k k1 k2 k' : K) (m : Z) :
  file_Write k (rc v) [reg] = (k1, (m, None)) ->
  file_Read k1 (rc v) 2 = (k2, ([b0; b1], None)) ->
  exists wu ws,
    res (ReadRegU16BE v reg k) = Val (wu, None) /\
    res (ReadRegS16BE v reg k) = Val (ws, None) /\
    bus_traffic (io (WriteRegU16BE v reg' wu k')) = [BusWrite [reg'; b0; b1]] /\
    bus_traffic (io (WriteRegS16BE v reg' ws k')) = [BusWrite [reg'; b0; b1]].
Proof.
  intros Hw Hr.
  exists (word_u16 b0 b1), (word_s16 b0 b1).
  pose proof (byte_val_range b0) as H0.
  pose proof (byte_val_range b1) as H1.
  split; [exact (ReadRegU16BE_ok v reg b0 b1 k k1 k2 m Hw Hr)|].
  split; [exact (ReadRegS16BE_ok v reg b0 b1 k k1 k2 m Hw Hr)|].
  split.
  - rewrite WriteRegU16BE_traffic, word_u16_value.
    do 4 f_equal; [| f_equal]; apply to_byte_eq;
      Z.div_mod_to_equations; lia.
  - rewrite WriteRegS16BE_traffic, word_s16_int16. unfold int16.
    do 4 f_equal; [| f_equal]; apply to_byte_eq;
      Z.div_mod_to_equations; lia.
Qed.

(** X17: for a value with high byte [hi] and low byte [lo], both
    little-endian writers put [reg; lo; low byte of (- lo)] on the bus in
    a single write: the last byte is computed from [lo] alone and [hi]
    does not reach the bus. *)
Theorem WriteRegLE_wire_bytes (v : I2C) (reg hi lo : byte) (k : K) :
  let u := 256 * byte_val hi + byte_val lo in
  bus_traffic (io (WriteRegU16LE v reg u k))
    = [BusWrite [reg; lo; to_byte (- byte_val lo)]] /\
  bus_traffic (io (WriteRegS16LE v reg (int16 u) k))
    = [BusWrite [reg; lo; to_byte (- byte_val lo)]].
Proof.
  intros u. subst u.
  pose proof (byte_val_range hi) as Hh.
  pose proof (byte_val_range lo) as Hl.
  rewrite WriteRegU16LE_traffic, WriteRegS16LE_traffic. unfold int16.
  split.
  - do 4 f_equal; [apply to_byte_eq | f_equal; apply to_byte_congr];
      Z.div_mod_to_equations; lia.
  - do 4 f_equal; [apply to_byte_eq | f_equal; apply to_byte_congr];
      Z.div_mod_to_equations; lia.
Qed.

(** ** The logger *)

Lemma logs_to_bind {A B : Type} (l : Logger) (m : M K A) (f : A -> M K B)
    (k : K) :
  logs_to l (m k) ->
  (forall a k', logs_to l (f a k')) ->
  logs_to l (bind m f k).
Proof.
  unfold logs_to, bind. intros Hm Hf.
  destruct (m k) as [[a|msg] k' evs ds]; cbn [diag] in *; [|exact Hm].
  specialize (Hf a k').
  destruct (f a k') as [r k'' evs' ds']; cbn [diag] in *.
  apply Forall_app. split; assumption.
Qed.

Lemma logs_to_quiet {A : Type} (l : Logger) (o : Out K A) :
  diag o = [] -> logs_to l o.
Proof.
  unfold logs_to. intros ->. constructor.
Qed.

Lemma logs_to_Debugf (l : Logger) (m : Msg) (k : K) :
  logs_to l (Debugf l m k).
Proof.
  unfold logs_to, Debugf. cbn. constructor; [reflexivity | constructor].
Qed.

Lemma File_Write_quiet (f : File) (buf : list byte) (k : K) :
  diag (File_Write f buf k) = [].
Proof.
  unfold File_Write. destruct (file_Write k f buf). reflexivity.
Qed.

Lemma File_Read_quiet (f : File) (buf : list byte) (k : K) :
  diag (File_Read f buf k) = [].
Proof.
  unfold File_Read. destruct (file_Read k f (len buf)). reflexivity.
Qed.

Lemma make_quiet (n : Z) (k : K) : diag (make n k) = [].
Proof.
  unfold make. destruct (n <? 0); destruct (maxAlloc <? n); reflexivity.
Qed.

Lemma index_quiet (buf : list byte) (i : nat) (k : K) :
  diag (index buf i k) = [].
Proof.
  unfold index. destruct (nth_error buf i); reflexivity.
Qed.

Ltac open_methods :=
  unfold returned_error,
    ReadRegBytes, ReadRegU8, ReadRegU16BE, ReadRegU16LE, ReadRegS16BE,
    ReadRegS16LE, WriteRegU8, WriteRegU16BE, WriteRegU16LE, WriteRegS16BE,
    WriteRegS16LE;
  unfold ReadRegU16BE, ReadRegS16BE, WriteRegU16BE, WriteRegS16BE;
  unfold WriteBytes, ReadBytes, write, read.

Ltac split_values :=
  repeat match goal with
         | x : (_ * _)%type |- _ => destruct x
         | x : option error |- _ => destruct x
         end;
  cbv beta iota.

Ltac logging :=
  repeat first
    [ apply logs_to_Debugf
    | apply logs_to_quiet;
        first [ reflexivity | apply File_Write_quiet | apply File_Read_quiet
              | apply make_quiet | apply index_quiet ]
    | apply logs_to_bind; [| intros; split_values ] ].

Lemma register_operations_log_to_handle (v : I2C) (op : RegOp) (k : K) :
  logs_to (log v) (returned_error v op k).
Proof.
  destruct op; open_methods; logging.
Qed.

Lemma same_run_refl {A : Type} (o : Out K A) : same_run o o.
Proof.
  unfold same_run. split; [reflexivity | split; reflexivity].
Qed.

Lemma same_run_Debugf (l l' : Logger) (m m' : Msg) (k : K) :
  same_run (Debugf l m k) (Debugf l' m' k).
Proof.
  unfold same_run, Debugf. cbn. split; [reflexivity | split; reflexivity].
Qed.

Lemma same_run_bind {A B : Type} (m m' : M K A) (f f' : A -> M K B) (k : K) :
  same_run (m k) (m' k) ->
  (forall a k', same_run (f a k') (f' a k')) ->
  same_run (bind m f k) (bind m' f' k).
Proof.
  unfold same_run, bind. intros [Hr [Hs Hi]] Hf.
  destruct (m k) as [r1 s1 e1 d1]; destruct (m' k) as [r2 s2 e2 d2].
  cbn [res st io] in *. subst r2 s2 e2.
  destruct r1 as [a|msg]; cbn [res st io].
  - specialize (Hf a s1). destruct Hf as [Hr' [Hs' Hi']].
    destruct (f a s1) as [r3 s3 e3 d3]; destruct (f' a s1) as [r4 s4 e4 d4].
    cbn [res st io] in *. subst r4 s4 e4.
    split; [reflexivity | split; reflexivity].
  - split; [reflexivity | split; reflexivity].
Qed.

Ltac same_runs :=
  repeat first
    [ apply same_run_refl
    | apply same_run_Debugf
    | apply same_run_bind; [| intros; split_values ] ].

(** X18: every trace line a register operation emits goes to the
    logger of the handle; after [SetLogger] that is the logger given. *)
Theorem register_operations_log_to_SetLogger
    (v : I2C) (l : Logger) (op : RegOp) (k : K) :
  Forall (fun d : Logger * Msg => fst d = log v)
         (diag (returned_error v op k)) /\
  Forall (fun d : Logger * Msg => fst d = l)
         (diag (returned_error (SetLogger v l) op k)).
Proof.
  split.
  - exact (register_operations_log_to_handle v op k).
  - exact (register_operations_log_to_handle (SetLogger v l) op k).
Qed.

(** X19: the logger has no influence on what a handle does: with any
    logger set, each register operation makes the same external calls,
    leaves the same state and returns the same result. *)
Theorem SetLogger_changes_no_behaviour
    (v : I2C) (l : Logger) (reg value : byte) (n w : Z) (k : K) :
  let v' := SetLogger v l in
  same_run (ReadRegBytes v' reg n k) (ReadRegBytes v reg n k) /\
  same_run (ReadRegU8 v' reg k) (ReadRegU8 v reg k) /\
  same_run (WriteRegU8 v' reg value k) (WriteRegU8 v reg value k) /\
  same_run (ReadRegU16BE v' reg k) (ReadRegU16BE v reg k) /\
  same_run (ReadRegU16LE v' reg k) (ReadRegU16LE v reg k) /\
  same_run (ReadRegS16BE v' reg k) (ReadRegS16BE v reg k) /\
  same_run (ReadRegS16LE v' reg k) (ReadRegS16LE v reg k) /\
  same_run (WriteRegU16BE v' reg w k) (WriteRegU16BE v reg w k) /\
  same_run (WriteRegU16LE v' reg w k) (WriteRegU16LE v reg w k) /\
  same_run (WriteRegS16BE v' reg w k) (WriteRegS16BE v reg w k) /\
  same_run (WriteRegS16LE v' reg w k) (WriteRegS16LE v reg w k).
Proof.
  intros v'. subst v'.
  repeat match goal with |- _ /\ _ => split end;
    open_methods; cbn [rc log SetLogger]; same_runs.
Qed.

End Runs.

(** * Runs on the scripted bus *)

(** ** The little-endian helpers *)

(** C1, at [reg = 0x20], [value = 0x1234]: both little-endian writers
    put [0x20; 0x34; 0xCC] on the bus.  The low byte comes first, but the
    byte after it is the low byte of [- value], not the high byte
    [0x12]. *)
Theorem WriteRegLE_loses_high_byte :
  bus_traffic (io (WriteRegU16LE handle x20 0x1234 (supplying [])))
    = [BusWrite [x20; x34; xcc]] /\
  bus_traffic (io (WriteRegS16LE handle x20 0x1234 (supplying [])))
    = [BusWrite [x20; x34; xcc]] /\
  [BusWrite [x20; x34; xcc]] <> [BusWrite [x20; x34; x12]].
Proof.
  split; [reflexivity | split; [reflexivity | discriminate]].
Qed.

(** C2, on the wire bytes [0xFF; 0x00]: the signed big-endian reader
    returns [-256]; [ReadRegS16LE] returns [-1], whereas the signed
    value with high byte [0x00] and low byte [0xFF] is [255]. *)
Theorem ReadRegS16LE_sign_extends :
  res (ReadRegS16BE handle x10 (supplying [xff; x00])) = Val (-256, None) /\
  res (ReadRegS16LE handle x10 (supplying [xff; x00])) = Val (-1, None) /\
  word_s16 x00 xff = 255.
Proof.
  split; [reflexivity | split; reflexivity].
Qed.

(** ** Concrete runs of the general statements *)



Lemma ReadRegU16_wire_order_witness :
  res (ReadRegU16BE handle x10 (supplying [x12; x34])) = Val (0x1234, None) /\
  res (ReadRegU16LE handle x10 (supplying [x12; x34])) = Val (0x3412, None).
Proof.
  destruct (ReadRegU16_wire_order (os := FakeOS)
              handle x10 x12 x34
              (supplying [x12; x34]) (supplying [x12; x34]) (supplying [])
              1 ltac:(reflexivity) ltac:(reflexivity)) as [_ Hc].
  exact (Hc eq_refl eq_refl).
Defined.

Lemma ReadRegS16BE_twos_complement_witness :
  res (ReadRegS16BE handle x10 (supplying [xff; xff])) = Val (-1, None).
Proof.
  destruct (ReadRegS16BE_twos_complement (os := FakeOS)
              handle x10 xff xff
              (supplying [xff; xff]) (supplying [xff; xff]) (supplying [])
              1 ltac:(reflexivity) ltac:(reflexivity)) as [_ [Hc _]].
  exact (Hc eq_refl eq_refl).
Defined.

Lemma exchange_bytes_u16_involutive_witness :
  0 <= 0x1234 < 65536 /\
  exchange_bytes_u16 (exchange_bytes_u16 0x1234) = 0x1234.
Proof.
  split; [lia | apply exchange_bytes_u16_involutive; lia].
Defined.

(** A read that fails after a successful write: the read is the last
    call and its error is what [ReadRegU8] returns. *)
Lemma register_operations_report_io_errors_witness :
  let k := mkFakeBus (inl (mkFile 3)) 0 None (Some EREMOTEIO) [] in
  io (returned_error handle (OpReadRegU8 x10) k)
    = [IoWrite (mkFile 3) [x10] 1 None;
       IoRead (mkFile 3) 1 [] (Some EREMOTEIO)] /\
  res (returned_error handle (OpReadRegU8 x10) k) = Val (Some EREMOTEIO).
Proof.
  split; [reflexivity|].
  exact (proj1 (proj2 (register_operations_report_io_errors (os := FakeOS)
    handle (OpReadRegU8 x10)
    (mkFakeBus (inl (mkFile 3)) 0 None (Some EREMOTEIO) [])
    [IoWrite (mkFile 3) [x10] 1 None]
    (IoRead (mkFile 3) 1 [] (Some EREMOTEIO)) [] EREMOTEIO
    ltac:(reflexivity) ltac:(reflexivity)))).
Defined.

Lemma NewI2C_bind_failure_leaves_file_open_witness :
  let o := NewI2C x40 1 (mkFakeBus (inl (mkFile 3)) 22 None None []) in
  res o = Val (None, Some (Errno 22)) /\ closes (io o) = [].
Proof.
  destruct (NewI2C_bind_failure_leaves_file_open (os := FakeOS)
              x40 1
              (mkFakeBus (inl (mkFile 3)) 22 None None [])
              (mkFakeBus (inl (mkFile 3)) 22 None None [])
              (mkFakeBus (inl (mkFile 3)) 22 None None [])
              (mkFile 3) 22 ltac:(reflexivity) ltac:(reflexivity)
              ltac:(discriminate))
    as [Hres [_ Hclosed]].
  split; [exact Hres | exact Hclosed].
Defined.


(** ** Concrete runs of the further statements *)

Lemma NewI2C_open_failure_witness :
  let k := mkFakeBus (inr (PathError "open" "/dev/i2c-7" 2)) 0 None None [] in
  res (NewI2C x40 7 k) = Val (None, Some (PathError "open" "/dev/i2c-7" 2)) /\
  io (NewI2C x40 7 k)
    = [IoOpenFile "/dev/i2c-7" 2 384 (inr (PathError "open" "/dev/i2c-7" 2))].
Proof.
  destruct (NewI2C_open_failure (os := FakeOS) x40 7
              (mkFakeBus (inr (PathError "open" "/dev/i2c-7" 2)) 0 None None [])
              (mkFakeBus (inr (PathError "open" "/dev/i2c-7" 2)) 0 None None [])
              (PathError "open" "/dev/i2c-7" 2) ltac:(reflexivity))
    as [Hres [Hio _]].
  split; [exact Hres | exact Hio].
Defined.

Lemma NewI2C_success_witness :
  res (NewI2C x40 1 (supplying [])) = Val (Some handle, None) /\
  io (NewI2C x40 1 (supplying []))
    = [IoOpenFile "/dev/i2c-1" 2 384 (inl (mkFile 3)); IoIoctl 3 0x0703 64 0].
Proof.
  destruct (NewI2C_success (os := FakeOS) x40 1
              (supplying []) (supplying []) (supplying []) (mkFile 3)
              ltac:(reflexivity) ltac:(reflexivity))
    as [Hres [Hio _]].
  split; [exact Hres | exact Hio].
Defined.

Lemma NewI2C_then_Close_witness :
  exists f,
    io (NewI2C x40 1 (supplying []))
      = [IoOpenFile (device_path 1) O_RDWR perm0600 (inl f);
         IoIoctl (Fd f) i2cSlave (byte_val x40) 0] /\
    io (Close handle (st (NewI2C x40 1 (supplying []))))
      = [IoClose f
           (snd (file_Close (st (NewI2C x40 1 (supplying []))) f))] /\
    closes (io (NewI2C x40 1 (supplying []))
            ++ io (Close handle (st (NewI2C x40 1 (supplying []))))) = [f] /\
    res (Close handle (st (NewI2C x40 1 (supplying []))))
      = Val (snd (file_Close (st (NewI2C x40 1 (supplying []))) f)).
Proof.
  exact (NewI2C_then_Close (os := FakeOS) x40 1 (supplying []) handle
           ltac:(reflexivity)).
Defined.


Lemma ReadBytes_error_is_silent_witness :
  let k := mkFakeBus (inl (mkFile 3)) 0 None (Some EREMOTEIO) [] in
  diag (ReadBytes handle [x00; x00] k) = [] /\
  exists buf' n, res (ReadBytes handle [x00; x00] k) = Val (buf', n, Some EREMOTEIO).
Proof.
  exact (ReadBytes_error_is_silent (os := FakeOS)
           handle [x00; x00] []
           (mkFakeBus (inl (mkFile 3)) 0 None (Some EREMOTEIO) [])
           (mkFakeBus (inl (mkFile 3)) 0 None (Some EREMOTEIO) [])
           EREMOTEIO ltac:(reflexivity)).
Defined.

Lemma ReadRegU8_returns_first_byte_witness :
  res (ReadRegU8 handle x10 (supplying [xab])) = Val (xab, None).
Proof.
  exact (ReadRegU8_returns_first_byte (os := FakeOS)
           handle x10 xab (supplying [xab]) (supplying [xab]) (supplying [])
           1 [] ltac:(reflexivity) ltac:(reflexivity)).
Defined.

(** A short read: the device supplies one byte of the two asked for. *)
Lemma word_readers_ignore_count_witness :
  res (ReadRegU16BE handle x10 (supplying [x12])) = Val (0x1200, None) /\
  res (ReadRegS16BE handle x10 (supplying [x12])) = Val (0x1200, None).
Proof.
  exact (word_readers_ignore_count (os := FakeOS)
           handle x10 (supplying [x12]) (supplying [x12]) (supplying [])
           1 [x12] ltac:(reflexivity) ltac:(reflexivity)).
Defined.

Lemma ReadRegU16LE_little_endian_witness :
  res (ReadRegU16LE handle x10 (supplying [x12; x34])) = Val (0x3412, None).
Proof.
  exact (proj2 (ReadRegU16LE_little_endian (os := FakeOS)
           handle x10 x12 x34
           (supplying [x12; x34]) (supplying [x12; x34]) (supplying [])
           1 ltac:(reflexivity) ltac:(reflexivity))).
Defined.

Lemma ReadRegS16LE_value_witness :
  res (ReadRegS16LE handle x10 (supplying [x34; xff])) = Val (-204, None).
Proof.
  exact (ReadRegS16LE_value (os := FakeOS)
           handle x10 x34 xff
           (supplying [x34; xff]) (supplying [x34; xff]) (supplying [])
           1 ltac:(reflexivity) ltac:(reflexivity)).
Defined.

Lemma register_operations_invent_no_error_witness :
  let k := mkFakeBus (inl (mkFile 3)) 0 (Some EIO) None [] in
  exists pre ev,
    io (returned_error handle (OpWriteRegU8 x10 xab) k) = pre ++ [ev] /\
    io_error ev = Some EIO.
Proof.
  exact (register_operations_invent_no_error (os := FakeOS)
           handle (OpWriteRegU8 x10 xab)
           (mkFakeBus (inl (mkFile 3)) 0 (Some EIO) None [])
           EIO ltac:(reflexivity)).
Defined.



Lemma ReadRegBytes_result_shape_witness :
  exists buf, Some [x01; x00] = Some buf /\ len buf = 2 /\ 0 <= 1 <= 2.
Proof.
  exact (ReadRegBytes_result_shape (os := FakeOS)
           handle x10 2 (supplying [x01]) (Some [x01; x00]) 1 None
           ltac:(reflexivity)).
Defined.

Lemma big_endian_read_write_round_trip_witness :
  exists wu ws,
    res (ReadRegU16BE handle x10 (supplying [xfe; x0c])) = Val (wu, None) /\
    res (ReadRegS16BE handle x10 (supplying [xfe; x0c])) = Val (ws, None) /\
    bus_traffic (io (WriteRegU16BE handle x20 wu (supplying [])))
      = [BusWrite [x20; xfe; x0c]] /\
    bus_traffic (io (WriteRegS16BE handle x20 ws (supplying [])))
      = [BusWrite [x20; xfe; x0c]].
Proof.
  exact (big_endian_read_write_round_trip (os := FakeOS)
           handle x10 x20 xfe x0c
           (supplying [xfe; x0c]) (supplying [xfe; x0c]) (supplying [])
           (supplying []) 1 ltac:(reflexivity) ltac:(reflexivity)).
Defined.
